(** * Peer registry and dual-transport delivery of [chat_websocket_sse.py]

    A shallow embedding of the three request handlers of the chat server
    ([websocket_endpoint], [sse_endpoint], [send_message_http]), of the two
    process-wide dictionaries they share, and of the identifier check
    [uuid.UUID] they call, followed by the properties of the registry and of
    message delivery.

    Conventions.
    - Python strings are modelled as [string]; the development speaks about
      ASCII text, where characters and code points coincide.
    - A JSON field read with [data.get(k)] is an [option string]: [None]
      when the key is absent or [null], [Some s] for a JSON string.  Frames
      carrying other JSON types in these fields are outside the model.
    - A WebSocket object and an [asyncio.Queue] object are named by a
      number, which stands for the identity of the Python object.
    - [await] points are not interleaved: each handler step runs on the
      shared dictionaries as a whole.  The [print] calls and the handshake
      [websocket.accept()] leave the dictionaries alone and are omitted. *)

From stdpp Require Import gmap strings list fin_maps.
From Stdlib Require Import ZArith Ascii String Lia.

Open Scope string_scope.

(** ** Python string primitives used by [uuid.UUID] *)

Module PyStr.

(** [c in chars] for a character and a string used as a character set. *)
Fixpoint mem (c : ascii) (chars : string) : bool :=
  match chars with
  | EmptyString => false
  | String d r => if Ascii.eqb c d then true else mem c r
  end.

(** [s.startswith(p)] *)
Fixpoint startswith (p s : string) : bool :=
  match p, s with
  | EmptyString, _ => true
  | String a p', String b s' => if Ascii.eqb a b then startswith p' s' else false
  | String _ _, EmptyString => false
  end.

(** [s.replace(old, '')] for a non-empty [old]: the occurrences of [old]
    are removed from left to right, without overlap.  [skip] counts the
    characters of the current occurrence that remain to be dropped. *)
Fixpoint remove_go (old : string) (skip : nat) (s : string) : string :=
  match s with
  | EmptyString => EmptyString
  | String c s' =>
      match skip with
      | S k => remove_go old k s'
      | O => if startswith old s
             then remove_go old (Nat.pred (String.length old)) s'
             else String c (remove_go old 0 s')
      end
  end.

Definition remove (old s : string) : string := remove_go old 0 s.

(** [s.lstrip(chars)] *)
Fixpoint lstrip (chars s : string) : string :=
  match s with
  | EmptyString => EmptyString
  | String c s' => if mem c chars then lstrip chars s' else s
  end.

(** [s.rstrip(chars)] *)
Fixpoint rstrip (chars s : string) : string :=
  match s with
  | EmptyString => EmptyString
  | String c s' =>
      match rstrip chars s' with
      | EmptyString => if mem c chars then EmptyString else String c EmptyString
      | r => String c r
      end
  end.

(** [s.strip(chars)] *)
Definition strip (chars s : string) : string := rstrip chars (lstrip chars s).

End PyStr.

(** ** [int(text, 16)] on ASCII text

    The parser of CPython ([PyLong_FromString] with base 16): blanks around
    the number, an optional sign, an optional [0x] prefix followed by at most
    one underscore, then digits separated by single underscores; at least one
    digit; nothing else.  [None] stands for [ValueError]. *)

Module PyInt.

(** [Py_ISSPACE]: tab, line feed, vertical tab, form feed, carriage
    return, space. *)
Definition isspace (c : ascii) : bool :=
  let n := nat_of_ascii c in
  (Nat.leb 9 n && Nat.leb n 13) || Nat.eqb n 32.

Fixpoint skip_spaces (s : string) : string :=
  match s with
  | EmptyString => EmptyString
  | String c s' => if isspace c then skip_spaces s' else s
  end.

(** Value of a base-16 digit. *)
Definition hex_value (c : ascii) : option Z :=
  let n := nat_of_ascii c in
  if Nat.leb 48 n && Nat.leb n 57 then Some (Z.of_nat (n - 48))
  else if Nat.leb 97 n && Nat.leb n 102 then Some (Z.of_nat (n - 87))
  else if Nat.leb 65 n && Nat.leb n 70 then Some (Z.of_nat (n - 55))
  else None.

Definition is_hex (c : ascii) : bool :=
  match hex_value c with Some _ => true | None => false end.

Definition underscore : ascii := "_"%char.

(** The digit loop.  [prev_us] tells whether the previous character was an
    underscore.  The result is the accumulated value and the unread rest;
    [None] on a doubled or a trailing underscore. *)
Fixpoint digits (s : string) (prev_us : bool) (acc : Z) : option (Z * string) :=
  match s with
  | EmptyString => if prev_us then None else Some (acc, EmptyString)
  | String c s' =>
      if Ascii.eqb c underscore then
        if prev_us then None else digits s' true acc
      else
        match hex_value c with
        | Some d => digits s' false (16 * acc + d)%Z
        | None => if prev_us then None else Some (acc, s)
        end
  end.

Definition take_sign (s : string) : Z * string :=
  match s with
  | String "+"%char r => (1%Z, r)
  | String "-"%char r => ((-1)%Z, r)
  | _ => (1%Z, s)
  end.

Definition take_prefix (s : string) : string :=
  match s with
  | String "0"%char (String x r) =>
      if Ascii.eqb x "x"%char || Ascii.eqb x "X"%char then
        match r with
        | String "_"%char r' => r'
        | _ => r
        end
      else s
  | _ => s
  end.

Definition int16 (text : string) : option Z :=
  let s0 := skip_spaces text in
  let '(sign, s1) := take_sign s0 in
  let s2 := take_prefix s1 in
  match s2 with
  | String "_"%char _ => None
  | _ =>
      match digits s2 false 0%Z with
      | None => None
      | Some (v, rest) =>
          if String.eqb rest s2 then None
          else
            match skip_spaces rest with
            | EmptyString => Some (sign * v)%Z
            | String _ _ => None
            end
      end
  end.

End PyInt.

(** ** [uuid.UUID(hex)]

    The constructor of the standard library, on its [hex] argument: the
    prefixes [urn:] and [uuid:] are removed wherever they occur, braces are
    stripped from both ends, hyphens are removed, and what remains must be 32
    characters that [int(_, 16)] reads as a 128-bit number.  The result is
    the number; [None] stands for the [ValueError] the handlers catch. *)

Definition undecorated (hex : string) : string :=
  let hex := PyStr.remove "uuid:" (PyStr.remove "urn:" hex) in
  PyStr.remove "-" (PyStr.strip "{}" hex).

Definition UUID (hex : string) : option Z :=
  let hex := undecorated hex in
  if Nat.eqb (String.length hex) 32 then
    match PyInt.int16 hex with
    | Some n => if (0 <=? n)%Z && (n <? 2 ^ 128)%Z then Some n else None
    | None => None
    end
  else None.

(** The check every handler performs: [uuid.UUID(s)] does not raise. *)
Definition valid_uuid (s : string) : bool :=
  match UUID s with Some _ => true | None => false end.

(** The canonical textual form of an identifier, as the specification words
    it: 8-4-4-4-12 hexadecimal digits separated by hyphens. *)
Fixpoint all_hex (n : nat) (s : string) : option string :=
  match n with
  | O => Some s
  | S k =>
      match s with
      | String c s' => if PyInt.is_hex c then all_hex k s' else None
      | EmptyString => None
      end
  end.

Definition hyphen_then (n : nat) (s : string) : option string :=
  match s with
  | String "-"%char s' => all_hex n s'
  | _ => None
  end.

Definition canonical (s : string) : bool :=
  match all_hex 8 s with
  | Some s1 =>
      match hyphen_then 4 s1 with
      | Some s2 =>
          match hyphen_then 4 s2 with
          | Some s3 =>
              match hyphen_then 4 s3 with
              | Some s4 =>
                  match hyphen_then 12 s4 with
                  | Some EmptyString => true
                  | _ => false
                  end
              | None => false
              end
          | None => false
          end
      | None => false
      end
  | None => false
  end.


(** Every character of [s] is a hexadecimal digit. *)
Fixpoint hex_only (s : string) : bool :=
  match s with
  | EmptyString => true
  | String c r => PyInt.is_hex c && hex_only r
  end.

(** Every character of [s] is a hexadecimal digit or a hyphen. *)
Fixpoint hex_or_hyphen (s : string) : bool :=
  match s with
  | EmptyString => true
  | String c r => (PyInt.is_hex c || Ascii.eqb c "-"%char) && hex_or_hyphen r
  end.

(** ** The shared state of the server process *)

Open Scope list_scope.

(** Identity of a [WebSocket] object. *)
Abbreviation chan := nat (only parsing).
(** Identity of an [asyncio.Queue] object. *)
Abbreviation queue := nat (only parsing).

(** The dictionary [{"type": "message", "from_uuid": .., "text": ..}] that a
    delivery writes to the recipient. *)
Record message := Message { from_uuid : string; text : string }.

(** What [send_json] writes on a WebSocket. *)
Inductive out_frame :=
| Error (detail : string)
| Registered (uuid : string)
| Incoming (m : message)
| MessageSent (to_uuid : string).

#[global] Instance message_eq_dec : EqDecision message.
Proof. solve_decision. Defined.
#[global] Instance out_frame_eq_dec : EqDecision out_frame.
Proof. solve_decision. Defined.

(** The two module-level dictionaries, together with what the outside world
    has seen: [sent] lists the frames written on each WebSocket, oldest
    first; [queued] lists the items put on each queue, oldest first;
    [closed] holds the WebSockets on which [send_json] raises;
    [next_queue] names the next [asyncio.Queue()] to be created. *)
Record world := World {
  websocket_connections : gmap string nat;
  sse_queues : gmap string nat;
  sent : gmap nat (list out_frame);
  queued : gmap nat (list message);
  closed : gset nat;
  next_queue : nat
}.

Definition empty_world : world :=
  World ∅ ∅ ∅ ∅ ∅ 0.

Definition set_websocket_connections (f : gmap string nat → gmap string nat)
    (w : world) : world :=
  World (f (websocket_connections w)) (sse_queues w) (sent w) (queued w)
        (closed w) (next_queue w).

Definition set_sse_queues (f : gmap string nat → gmap string nat)
    (w : world) : world :=
  World (websocket_connections w) (f (sse_queues w)) (sent w) (queued w)
        (closed w) (next_queue w).

Definition frames_on (c : chan) (w : world) : list out_frame :=
  default [] (sent w !! c).

Definition items_on (q : queue) (w : world) : list message :=
  default [] (queued w !! q).

(** [await ws.send_json(f)]: [None] when the call raises. *)
Definition send_json (c : chan) (f : out_frame) (w : world) : option world :=
  if decide (c ∈ closed w) then None
  else Some (World (websocket_connections w) (sse_queues w)
                   (<[c := frames_on c w ++ [f]]> (sent w)) (queued w)
                   (closed w) (next_queue w)).

(** [await q.put(m)] on an unbounded queue: never fails. *)
Definition put (q : queue) (m : message) (w : world) : world :=
  World (websocket_connections w) (sse_queues w) (sent w)
        (<[q := items_on q w ++ [m]]> (queued w)) (closed w) (next_queue w).

(** [try: await target_ws.send_json(f)  except Exception: pass] *)
Definition send_json_guarded (c : chan) (f : out_frame) (w : world) : world :=
  match send_json c f w with
  | Some w' => w'
  | None => w
  end.

(** Truth value of a field: [None] and the empty string are false. *)
Definition truthy (v : option string) : bool :=
  match v with
  | None => false
  | Some s => negb (String.eqb s "")
  end.

(** The string held by a field that passed the truth test. *)
Definition str (v : option string) : string := default "" v.

(** The outcome of a delivery, in the words of the specification. *)
Inductive DeliveryResult := Delivered | PeerOffline.

#[global] Instance DeliveryResult_eq_dec : EqDecision DeliveryResult.
Proof. solve_decision. Defined.

Definition not_online (to_uuid : string) : string :=
  String.append "Peer " (String.append to_uuid " is not online").

(** ** [websocket_endpoint] *)

(** An event read by [receive_json], by its ["type"]: ["register"] with
    its [uuid] field, ["message"] with its [to_uuid] and [text] fields, or any
    other type, which the loop ignores. *)
Inductive event :=
| Register (uuid : option string)
| Send (to_uuid text : option string)
| Other.

(** What ends the receive loop.  [WebSocketDisconnect] and any other
    [Exception] are caught by the two [except] clauses; a [BaseException]
    that is not an [Exception] ([asyncio.CancelledError]) is caught by
    neither. *)
Inductive exn := WebSocketDisconnect | Exception | CancelledError.

(** State of one pass through the loop body: either the loop goes on with
    the local variable [user_uuid], or an exception leaves the [try]. *)
Inductive flow :=
| Next (user_uuid : option string) (w : world)
| Raise (e : exn) (user_uuid : option string) (w : world).

(** [await websocket.send_json(f)] on the session's own WebSocket, outside
    any inner [try]: a failure leaves the loop.  Whichever of the two
    [except] clauses catches it, the cleanup is the same. *)
Definition reply (websocket : chan) (f : out_frame)
    (user_uuid : option string) (w : world) : flow :=
  match send_json websocket f w with
  | Some w' => Next user_uuid w'
  | None => Raise Exception user_uuid w
  end.

(** Lines 36-61: the ["register"] branch.  The local variable is assigned
    before the two checks. *)
Definition on_register (websocket : chan) (uuid : option string)
    (w : world) : flow :=
  let user_uuid := uuid in
  if negb (truthy user_uuid) then
    reply websocket (Error "UUID is required") user_uuid w
  else
    match UUID (str user_uuid) with
    | None => reply websocket (Error "Invalid UUID") user_uuid w
    | Some _ =>
        let w1 := set_websocket_connections (<[str user_uuid := websocket]>) w in
        reply websocket (Registered (str user_uuid)) user_uuid w1
    end.

(** Lines 82-101: the two delivery attempts of the ["message"] branch and
    the test of line 104.  A [WebSocket] and an [asyncio.Queue] are always
    true as Python conditions, so [if target_ws:] and [if target_queue:] test
    whether the dictionary holds an entry. *)
Definition ws_deliver (from to_uuid body : string) (w : world)
    : world * DeliveryResult :=
  let m := Message from body in
  let target_ws := websocket_connections w !! to_uuid in
  let w1 :=
    match target_ws with
    | Some c => send_json_guarded c (Incoming m) w
    | None => w
    end in
  let target_queue := sse_queues w1 !! to_uuid in
  let w2 :=
    match target_queue with
    | Some q => put q m w1
    | None => w1
    end in
  match target_ws, target_queue with
  | None, None => (w2, PeerOffline)
  | _, _ => (w2, Delivered)
  end.

(** Lines 63-113: the ["message"] branch. *)
Definition on_message (websocket : chan) (user_uuid to_uuid body : option string)
    (w : world) : flow :=
  if negb (truthy user_uuid) then
    reply websocket (Error "Register first") user_uuid w
  else if negb (truthy to_uuid) || negb (truthy body) then
    reply websocket (Error "to_uuid and text are required") user_uuid w
  else
    match ws_deliver (str user_uuid) (str to_uuid) (str body) w with
    | (w', PeerOffline) =>
        reply websocket (Error (not_online (str to_uuid))) user_uuid w'
    | (w', Delivered) =>
        reply websocket (MessageSent (str to_uuid)) user_uuid w'
    end.

(** One pass through the body of [while True], after [receive_json] has
    returned [ev]. *)
Definition on_event (websocket : chan) (user_uuid : option string)
    (ev : event) (w : world) : flow :=
  match ev with
  | Register uuid => on_register websocket uuid w
  | Send to_uuid body => on_message websocket user_uuid to_uuid body w
  | Other => Next user_uuid w
  end.

(** The loop over the events the client sends. *)
Fixpoint receive_loop (websocket : chan) (user_uuid : option string)
    (evs : list event) (w : world) : flow :=
  match evs with
  | [] => Next user_uuid w
  | ev :: rest =>
      match on_event websocket user_uuid ev w with
      | Next user_uuid' w' => receive_loop websocket user_uuid' rest w'
      | Raise e user_uuid' w' => Raise e user_uuid' w'
      end
  end.

(** Lines 115-122: the [except] clauses. *)
Definition on_exit (e : exn) (user_uuid : option string) (w : world) : world :=
  match e with
  | WebSocketDisconnect | Exception =>
      if truthy user_uuid
      then set_websocket_connections (delete (str user_uuid)) w
      else w
  | CancelledError => w
  end.

(** A whole session: the client sends [evs], then [receive_json] raises
    [final] (unless a reply failed before). *)
Definition websocket_endpoint (websocket : chan) (evs : list event)
    (final : exn) (w : world) : world :=
  match receive_loop websocket None evs w with
  | Next user_uuid w' => on_exit final user_uuid w'
  | Raise e user_uuid w' => on_exit e user_uuid w'
  end.

(** ** [sse_endpoint] *)

Inductive sse_response :=
| SseRejected (status_code : nat) (error : string)
| SseStream (user_uuid : string) (q : queue).

(** Lines 125-172, up to the creation of the stream. *)
Definition sse_endpoint (uuid : option string) (w : world)
    : sse_response * world :=
  let user_uuid := uuid in
  if negb (truthy user_uuid) then
    (SseRejected 400 "UUID parameter is required", w)
  else
    match UUID (str user_uuid) with
    | None => (SseRejected 400 "Invalid UUID", w)
    | Some _ =>
        let q := next_queue w in
        let w1 := World (websocket_connections w)
                        (<[str user_uuid := q]> (sse_queues w))
                        (sent w) (queued w) (closed w) (S q) in
        (SseStream (str user_uuid) q, w1)
    end.

(** Lines 158-162: the stream of [user_uuid] is cancelled. *)
Definition sse_cancelled (user_uuid : string) (w : world) : world :=
  set_sse_queues (delete user_uuid) w.

(** ** [send_message_http] *)

Record send_request := SendRequest {
  req_from_uuid : option string;
  req_to_uuid : option string;
  req_text : option string
}.

Record JSONResponse := Response {
  status_code : nat;
  success : bool;
  detail : string
}.

#[global] Instance JSONResponse_eq_dec : EqDecision JSONResponse.
Proof. solve_decision. Defined.

(** Lines 205-228: the two delivery attempts and the [delivered] flag. *)
Definition http_deliver (from to_uuid body : string) (w : world)
    : world * DeliveryResult :=
  let m := Message from body in
  let target_ws := websocket_connections w !! to_uuid in
  let '(w1, delivered) :=
    match target_ws with
    | Some c =>
        match send_json c (Incoming m) w with
        | Some w' => (w', true)
        | None => (w, false)
        end
    | None => (w, false)
    end in
  let target_queue := sse_queues w1 !! to_uuid in
  let '(w2, delivered) :=
    match target_queue with
    | Some q => (put q m w1, true)
    | None => (w1, delivered)
    end in
  (w2, if delivered then Delivered else PeerOffline).

(** Lines 175-239.  [None] is a body that is not JSON. *)
Definition send_message_http (body : option send_request) (w : world)
    : JSONResponse * world :=
  match body with
  | None => (Response 400 false "Invalid JSON", w)
  | Some data =>
      let from_uuid := req_from_uuid data in
      let to_uuid := req_to_uuid data in
      let txt := req_text data in
      if negb (truthy from_uuid) || negb (truthy to_uuid) || negb (truthy txt)
      then (Response 400 false "from_uuid, to_uuid and text are required", w)
      else
        match UUID (str from_uuid), UUID (str to_uuid) with
        | Some _, Some _ =>
            match http_deliver (str from_uuid) (str to_uuid) (str txt) w with
            | (w', PeerOffline) =>
                (Response 404 false (not_online (str to_uuid)), w')
            | (w', Delivered) =>
                (Response 200 true "Message sent successfully", w')
            end
        | _, _ => (Response 400 false "Invalid UUID", w)
        end
  end.

(** ** Vocabulary of the statements *)

(** A WebSocket is stored under [id]. *)
Definition has_websocket (w : world) (id : string) : bool :=
  match websocket_connections w !! id with Some _ => true | None => false end.

(** A queue is stored under [id]. *)
Definition has_queue (w : world) (id : string) : bool :=
  match sse_queues w !! id with Some _ => true | None => false end.

(** A WebSocket is stored under [id] and [send_json] on it does not raise. *)
Definition websocket_writable (w : world) (id : string) : bool :=
  match websocket_connections w !! id with
  | Some c => bool_decide (c ∉ closed w)
  | None => false
  end.

(** The state and the local variable a pass through the loop body leaves. *)
Definition world_of (f : flow) : world :=
  match f with Next _ w => w | Raise _ _ w => w end.

Definition user_of (f : flow) : option string :=
  match f with Next u _ => u | Raise _ u _ => u end.

(** Sample identifiers and states used in the examples. *)
Definition alice : string := "11111111-1111-1111-1111-111111111111".
Definition bob : string := "22222222-2222-2222-2222-222222222222".
Definition bob_upper : string := "BBBBBBBB-2222-2222-2222-222222222222".
Definition bob_lower : string := "bbbbbbbb-2222-2222-2222-222222222222".

(** [bob]'s WebSocket 7 is registered and its connection is broken; [bob]
    has no queue. *)
Definition stale_world : world :=
  World {[bob := 7]} ∅ ∅ ∅ {[7]} 0.

(** [bob] is reachable on WebSocket 7 and on queue 0. *)
Definition both_world : world :=
  World {[bob := 7]} {[bob := 0]} ∅ ∅ ∅ 1.

(** ** [json.dumps] on a dictionary of strings

    The encoder of the standard library with its default settings
    ([ensure_ascii], separators [", "] and [": "]), as [event_generator]
    calls it: a string is written between double quotes, with the quote and
    the backslash escaped by a backslash, the control characters backspace,
    tab, line feed, form feed and carriage return as [\b \t \n \f \r], and
    every other character outside the printable range space to tilde as
    [\u00XX] in lower-case hexadecimal.  The members of a dictionary come in
    insertion order. *)

Module PyJson.

Definition quote : ascii := ascii_of_nat 34.
Definition backslash : ascii := ascii_of_nat 92.
Definition line_feed : ascii := ascii_of_nat 10.
Definition carriage_return : ascii := ascii_of_nat 13.

(** The hexadecimal digit of a number below 16, in lower case. *)
Definition hex_digit (n : nat) : ascii :=
  if Nat.ltb n 10 then ascii_of_nat (48 + n) else ascii_of_nat (87 + n).

Definition escaped (c : ascii) : string :=
  String backslash (String c EmptyString).

(** What the encoder writes for one character of a string. *)
Definition escape_char (c : ascii) : string :=
  let n := nat_of_ascii c in
  if Nat.eqb n 34 then escaped quote
  else if Nat.eqb n 92 then escaped backslash
  else if Nat.eqb n 10 then escaped "n"%char
  else if Nat.eqb n 13 then escaped "r"%char
  else if Nat.eqb n 9 then escaped "t"%char
  else if Nat.eqb n 8 then escaped "b"%char
  else if Nat.eqb n 12 then escaped "f"%char
  else if Nat.leb 32 n && Nat.leb n 126 then String c EmptyString
  else
    String backslash
      (String "u"%char
         (String "0"%char
            (String "0"%char
               (String (hex_digit (n / 16))
                  (String (hex_digit (n mod 16)) EmptyString))))).

Fixpoint escape (s : string) : string :=
  match s with
  | EmptyString => EmptyString
  | String c r => escape_char c +:+ escape r
  end.

(** A string as a JSON string literal. *)
Definition literal (s : string) : string :=
  String quote (escape s +:+ String quote EmptyString).

Definition member (kv : string * string) : string :=
  literal (fst kv) +:+ ": " +:+ literal (snd kv).

Fixpoint members (d : list (string * string)) : string :=
  match d with
  | [] => EmptyString
  | [kv] => member kv
  | kv :: rest => member kv +:+ ", " +:+ members rest
  end.

(** [json.dumps(d)] for a dictionary [d] whose keys and values are
    strings. *)
Definition dumps (d : list (string * string)) : string :=
  "{" +:+ members d +:+ "}".

(** The reading that undoes [escape]: the text of a string literal, from
    after its opening quote up to its closing quote, and what follows the
    closing quote.  It serves to show that the encoding loses nothing. *)
Definition unhex (c : ascii) : option nat :=
  let n := nat_of_ascii c in
  if Nat.leb 48 n && Nat.leb n 57 then Some (n - 48)
  else if Nat.leb 97 n && Nat.leb n 102 then Some (n - 87)
  else None.

Definition unescape (c : ascii) : option ascii :=
  let n := nat_of_ascii c in
  if Nat.eqb n 34 then Some quote
  else if Nat.eqb n 92 then Some backslash
  else if Nat.eqb n 110 then Some line_feed
  else if Nat.eqb n 114 then Some carriage_return
  else if Nat.eqb n 116 then Some (ascii_of_nat 9)
  else if Nat.eqb n 98 then Some (ascii_of_nat 8)
  else if Nat.eqb n 102 then Some (ascii_of_nat 12)
  else None.

Definition push (c : ascii) (r : option (string * string))
    : option (string * string) :=
  match r with
  | Some (t, rest) => Some (String c t, rest)
  | None => None
  end.

Fixpoint read_string (s : string) : option (string * string) :=
  match s with
  | EmptyString => None
  | String c r =>
      if Ascii.eqb c quote then Some (EmptyString, r)
      else if Ascii.eqb c backslash then
        match r with
        | String e r1 =>
            if Ascii.eqb e "u"%char then
              match r1 with
              | String _ (String _ (String h (String l r2))) =>
                  match unhex h, unhex l with
                  | Some a, Some b =>
                      push (ascii_of_nat (16 * a + b)) (read_string r2)
                  | _, _ => None
                  end
              | _ => None
              end
            else
              match unescape e with
              | Some x => push x (read_string r1)
              | None => None
              end
        | EmptyString => None
        end
      else push c (read_string r)
  end.

End PyJson.

(** ** [event_generator] *)

(** [f"data: {payload}\n\n"], one event of the stream. *)
Definition sse_data (payload : string) : string :=
  "data: " +:+ payload
    +:+ String PyJson.line_feed (String PyJson.line_feed EmptyString).

(** Line 150: the first event of a stream. *)
Definition connected_event (user_uuid : string) : string :=
  sse_data (PyJson.dumps [("type", "connected"); ("uuid", user_uuid)]).

(** Line 156: the event that forwards one item of the queue.  The item is
    the dictionary the delivery code put there. *)
Definition message_event (m : message) : string :=
  sse_data (PyJson.dumps [("type", "message"); ("from_uuid", from_uuid m);
                          ("text", text m)]).

(** The fixed text of a message event before the sender, between the
    sender and the text, and after the text. *)
Definition event_head : string :=
  "data: {" +:+ PyJson.literal "type" +:+ ": " +:+ PyJson.literal "message"
    +:+ ", " +:+ PyJson.literal "from_uuid" +:+ ": "
    +:+ String PyJson.quote EmptyString.

Definition event_middle : string :=
  ", " +:+ PyJson.literal "text" +:+ ": " +:+ String PyJson.quote EmptyString.

Definition event_tail : string :=
  String "}"%char
    (String PyJson.line_feed (String PyJson.line_feed EmptyString)).

(** Lines 147-156: what the generator has yielded once [queue.get()] has
    returned the items [got], oldest first. *)
Definition event_generator (user_uuid : string) (got : list message)
    : list string :=
  connected_event user_uuid :: map message_event got.

(** ** Runs of the server *)

(** A sequence of requests to [/api/send], handled one after the other. *)
Fixpoint send_all (reqs : list send_request) (w : world)
    : list JSONResponse * world :=
  match reqs with
  | [] => ([], w)
  | r :: rest =>
      let '(resp, w1) := send_message_http (Some r) w in
      let '(resps, w2) := send_all rest w1 in
      (resp :: resps, w2)
  end.

(** The connection of WebSocket [c] drops: from now on [send_json] on it
    raises. *)
Definition break_connection (c : chan) (w : world) : world :=
  World (websocket_connections w) (sse_queues w) (sent w) (queued w)
        ({[c]} ∪ closed w) (next_queue w).

(** One step of the server: a handler runs one of its atomic stretches, or
    a connection drops.  The local variable of a session and the identifier
    of a cancelled stream are left free, so the relation covers every
    interleaving of the handlers. *)
Inductive step : world → world → Prop :=
| step_event websocket user_uuid ev w :
    step w (world_of (on_event websocket user_uuid ev w))
| step_exit e user_uuid w :
    step w (on_exit e user_uuid w)
| step_subscribe uuid w :
    step w (snd (sse_endpoint uuid w))
| step_cancel user_uuid w :
    step w (sse_cancelled user_uuid w)
| step_send body w :
    step w (snd (send_message_http body w))
| step_break c w :
    step w (break_connection c w).

(** The states the server can be in. *)
Definition reachable (w : world) : Prop := rtc step empty_world w.

(** A request to [/api/send] that passes every check of lines 177-203. *)
Definition well_formed (body : option send_request) : bool :=
  match body with
  | None => false
  | Some data =>
      truthy (req_from_uuid data) && truthy (req_to_uuid data)
      && truthy (req_text data)
      && valid_uuid (str (req_from_uuid data))
      && valid_uuid (str (req_to_uuid data))
  end.

(** The recipient a request names, and the dictionary a delivery of the
    request writes. *)
Definition recipient (body : option send_request) : string :=
  match body with
  | Some data => str (req_to_uuid data)
  | None => ""
  end.

Definition payload_of (data : send_request) : message :=
  Message (str (req_from_uuid data)) (str (req_text data)).

Definition is_register (ev : event) : bool :=
  match ev with Register _ => true | _ => false end.

Definition is_send (ev : event) : bool :=
  match ev with Send _ _ => true | _ => false end.

(** Every key of a dictionary is a non-empty text that [uuid.UUID]
    accepts. *)
Definition keys_valid (m : gmap string nat) : Prop :=
  ∀ id x, m !! id = Some x → id ≠ "" ∧ valid_uuid id = true.

(** The queues stored in the dictionary were all created already, and no
    queue is stored under two identifiers. *)
Definition queues_owned (w : world) : Prop :=
  (∀ id q, sse_queues w !! id = Some q → q < next_queue w) ∧
  (∀ id1 id2 q, sse_queues w !! id1 = Some q → sse_queues w !! id2 = Some q →
                id1 = id2).

(** Sample requests. *)
Definition hi_to_bob : send_request :=
  SendRequest (Some alice) (Some bob) (Some "hi").
Definition bye_to_bob : send_request :=
  SendRequest (Some alice) (Some bob) (Some "bye").

(** [bob] has subscribed to the event stream of a fresh server. *)
Definition subscribed_world : world :=
  snd (sse_endpoint (Some bob) empty_world).

(** A sender and a text that try to pass for one another in an event. *)
Definition forged_sender : string :=
  alice +:+ String PyJson.quote (", " +:+ PyJson.literal "text" +:+ ": ").
Definition forged_text : string :=
  String PyJson.quote (", " +:+ PyJson.literal "text" +:+ ": hi").

(** [bob] has a queue and a WebSocket 7 whose connection is broken. *)
Definition broken_both_world : world :=
  World {[bob := 7]} {[bob := 0]} ∅ ∅ {[7]} 1.

(** [bob] has subscribed and has then registered on WebSocket 7. *)
Definition registered_world : world :=
  world_of (on_event 7 None (Register (Some bob)) subscribed_world).

(** Lines 147-162: how the stream of a subscription ends.  The handler of
    line 158 runs only when [CancelledError] is raised inside the [try], that
    is while the generator waits in [queue.get()].  A generator that is closed
    while it is suspended at a [yield] receives [GeneratorExit] there, and a
    generator that was never iterated runs no code at all: neither reaches
    the [pop] of line 160. *)
Inductive stream_end := CancelledWhileWaiting | ClosedAtYield | NeverIterated.

Definition event_generator_ends (how : stream_end) (user_uuid : string)
    (w : world) : world :=
  match how with
  | CancelledWhileWaiting => sse_cancelled user_uuid w
  | ClosedAtYield | NeverIterated => w
  end.

(** The characters [int(_, 16)] can read, the hyphen apart: hexadecimal
    digits, blanks, the sign [+], the letters of the prefix [0x] and the
    underscore. *)
Definition int_char (c : ascii) : bool :=
  PyInt.is_hex c || PyInt.isspace c || PyStr.mem c "+xX_".

Fixpoint int_chars (s : string) : bool :=
  match s with
  | EmptyString => true
  | String c r => int_char c && int_chars r
  end.

(** Text of the ASCII range, the domain on which the model of [int] is
    that of CPython. *)
Fixpoint ascii_only (s : string) : bool :=
  match s with
  | EmptyString => true
  | String c r => Nat.ltb (nat_of_ascii c) 128 && ascii_only r
  end.

(** What a write of [f] on the WebSocket [c] adds to the frames of [c]:
    [f] itself when the connection accepts the write, nothing when
    [send_json] raises. *)
Definition accepted (c : chan) (f : out_frame) (w : world) : list out_frame :=
  if decide (c ∈ closed w) then [] else [f].

(** The characters [int(_, 16)] can read, the sign [-] included. *)
Definition sign_or_int_char (c : ascii) : bool :=
  int_char c || Ascii.eqb c "-"%char.

Fixpoint readable (s : string) : bool :=
  match s with
  | EmptyString => true
  | String c r => sign_or_int_char c && readable r
  end.

(** What holds in every state of the server. *)
Definition registry_invariant (w : world) : Prop :=
  keys_valid (websocket_connections w) ∧ keys_valid (sse_queues w) ∧
  queues_owned w.

(** The number written by a run of hexadecimal digits, most significant
    digit first, continuing from [acc]. *)
Fixpoint hex_number (acc : Z) (s : string) : Z :=
  match s with
  | EmptyString => acc
  | String c r =>
      hex_number (16 * acc + default 0%Z (PyInt.hex_value c))%Z r
  end.

(** * Properties *)

(** ** The identifier check *)

Example valid_canonical :
  valid_uuid "12345678-1234-5678-1234-567812345678" = true.
Proof. vm_compute. reflexivity. Qed.

Example invalid_word : valid_uuid "not-a-uuid" = false.
Proof. vm_compute. reflexivity. Qed.

Section Validator.

Import PyStr PyInt.

Lemma is_hex_cases c :
  is_hex c = true →
  Ascii.eqb c "u"%char = false ∧ Ascii.eqb c "{"%char = false ∧
  Ascii.eqb c "}"%char = false ∧ Ascii.eqb c "-"%char = false ∧
  Ascii.eqb c "+"%char = false ∧ Ascii.eqb c "_"%char = false ∧
  Ascii.eqb c "x"%char = false ∧ Ascii.eqb c "X"%char = false ∧
  isspace c = false.
Proof.
  destruct c as [[] [] [] [] [] [] [] []]; vm_compute; intros H;
    try discriminate H; repeat split.
Qed.

Lemma hex_value_bound c d : hex_value c = Some d → (0 ≤ d < 16)%Z.
Proof.
  destruct c as [[] [] [] [] [] [] [] []]; intros H; vm_compute in H;
    try discriminate H; inversion H; lia.
Qed.

(** A pattern whose first character does not occur in [s] is not found. *)
Lemma remove_absent a old s :
  mem a s = false → remove (String a old) s = s.
Proof.
  unfold remove. induction s as [|c s IH]; [reflexivity|].
  cbn [mem remove_go startswith].
  destruct (Ascii.eqb a c); intros H; [discriminate H|].
  now rewrite IH.
Qed.

Lemma append_cons c s t : String c s +:+ t = String c (s +:+ t).
Proof. reflexivity. Qed.

Lemma lstrip_absent chars c s :
  mem c chars = false → lstrip chars (String c s) = String c s.
Proof. intros H. cbn. now rewrite H. Qed.

(** Trailing characters of the set are dropped. *)
Lemma rstrip_app chars s t :
  rstrip chars t = EmptyString → rstrip chars (s +:+ t) = rstrip chars s.
Proof.
  intros Ht. induction s as [|c s IH]; [exact Ht|].
  rewrite append_cons. cbn. now rewrite IH.
Qed.

Lemma remove_hyphen_app s t :
  remove "-" (s +:+ t) = remove "-" s +:+ remove "-" t.
Proof.
  unfold remove. induction s as [|c s IH]; [reflexivity|].
  rewrite append_cons. cbn [remove_go startswith String.length Nat.pred].
  destruct (Ascii.eqb "-" c); [exact IH|].
  now rewrite append_cons, IH.
Qed.

Lemma hex_only_no_char (a : ascii) s :
  is_hex a = false → hex_only s = true → mem a s = false.
Proof.
  intros Ha. induction s as [|c s IH]; [reflexivity|].
  cbn. intros [Hc Hs]%andb_prop.
  destruct (Ascii.eqb_spec a c) as [->|_]; [congruence|auto].
Qed.

Lemma hex_or_hyphen_no_char (a : ascii) s :
  is_hex a = false → Ascii.eqb a "-"%char = false →
  hex_or_hyphen s = true → mem a s = false.
Proof.
  intros Ha Hh. induction s as [|c s IH]; [reflexivity|].
  cbn. intros [Hc Hs]%andb_prop.
  destruct (Ascii.eqb_spec a c) as [->|_]; [|auto].
  rewrite Ha, Hh in Hc. discriminate.
Qed.

Lemma rstrip_absent chars s :
  (∀ a, mem a chars = true → mem a s = false) → rstrip chars s = s.
Proof.
  induction s as [|c s IH]; [reflexivity|].
  intros H. cbn. rewrite IH.
  - destruct s; [|reflexivity].
    destruct (mem c chars) eqn:E; [|reflexivity].
    specialize (H c E). cbn in H. now rewrite Ascii.eqb_refl in H.
  - intros a Ha. specialize (H a Ha). cbn in H.
    destruct (Ascii.eqb a c); [discriminate|exact H].
Qed.

Lemma hex_only_app s t :
  hex_only (s +:+ t) = hex_only s && hex_only t.
Proof.
  induction s as [|c s IH]; [reflexivity|].
  rewrite append_cons. cbn. now rewrite IH, andb_assoc.
Qed.

Lemma hex_only_hex_or_hyphen s : hex_only s = true → hex_or_hyphen s = true.
Proof.
  induction s as [|c s IH]; [reflexivity|]. cbn.
  intros [-> Hs]%andb_prop. cbn. auto.
Qed.

Lemma hex_or_hyphen_app s t :
  hex_or_hyphen (s +:+ t) = hex_or_hyphen s && hex_or_hyphen t.
Proof.
  induction s as [|c s IH]; [reflexivity|].
  rewrite append_cons. cbn. now rewrite IH, andb_assoc.
Qed.

Lemma length_app s t :
  String.length (s +:+ t) = String.length s + String.length t.
Proof.
  induction s as [|c s IH]; [reflexivity|].
  rewrite append_cons. cbn. now rewrite IH.
Qed.

(** The digit loop reads a run of hexadecimal digits to its end. *)
Lemma digits_hex_only s : ∀ b acc,
  hex_only s = true → s ≠ EmptyString ∨ b = false →
  ∃ v, digits s b acc = Some (v, EmptyString) ∧
       (acc * 16 ^ Z.of_nat (String.length s) ≤ v
        < (acc + 1) * 16 ^ Z.of_nat (String.length s))%Z.
Proof.
  induction s as [|c s IH]; intros b acc Hs Hb.
  - destruct Hb as [Hb| ->]; [congruence|]. exists acc. cbn. split; [reflexivity|lia].
  - cbn in Hs. apply andb_prop in Hs as [Hc Hs].
    destruct (is_hex_cases c Hc) as (_ & _ & _ & _ & _ & Hu & _).
    cbn [digits]. unfold underscore. rewrite Hu.
    unfold is_hex in Hc. destruct (hex_value c) as [d|] eqn:Hd; [|discriminate].
    destruct (IH false (16 * acc + d)%Z Hs (or_intror eq_refl)) as (v & Hv & Hr).
    exists v. split; [exact Hv|].
    apply hex_value_bound in Hd.
    cbn [String.length]. rewrite Nat2Z.inj_succ, Z.pow_succ_r by lia.
    nia.
Qed.

(** [int(s, 16)] reads every non-empty run of hexadecimal digits. *)
Lemma int16_hex_only s :
  hex_only s = true → s ≠ EmptyString →
  ∃ v, int16 s = Some v ∧ (0 ≤ v < 16 ^ Z.of_nat (String.length s))%Z.
Proof.
  intros Hs Hne.
  destruct (digits_hex_only s false 0%Z Hs (or_introl Hne)) as (v & Hv & Hr).
  exists v. split; [|lia].
  destruct s as [|c s]; [congruence|].
  cbn in Hs. apply andb_prop in Hs as [Hc Hs].
  destruct (is_hex_cases c Hc) as (_ & _ & _ & Hm & Hp & Hu & _ & _ & Hsp).
  unfold int16. cbn [skip_spaces]. rewrite Hsp.
  assert (take_sign (String c s) = (1%Z, String c s)) as ->.
  { unfold take_sign.
    destruct (Ascii.eqb_spec c "+"%char) as [->|]; [discriminate|].
    destruct (Ascii.eqb_spec c "-"%char) as [->|]; [discriminate|].
    destruct c as [[] [] [] [] [] [] [] []]; try reflexivity; congruence. }
  assert (take_prefix (String c s) = String c s) as ->.
  { unfold take_prefix.
    destruct s as [|x r].
    - destruct c as [[] [] [] [] [] [] [] []]; reflexivity.
    - cbn in Hs. apply andb_prop in Hs as [Hx _].
      destruct (is_hex_cases x Hx) as (_ & _ & _ & _ & _ & _ & -> & -> & _).
      destruct c as [[] [] [] [] [] [] [] []]; reflexivity. }
  assert (match String c s with
          | String "_"%char _ => None
          | _ => match digits (String c s) false 0 with
                 | Some (v0, rest) =>
                     if String.eqb rest (String c s) then None
                     else match skip_spaces rest with
                          | EmptyString => Some (1 * v0)%Z
                          | String _ _ => None
                          end
                 | None => None
                 end
          end = Some v) as Hgoal.
  { rewrite Hv. cbn [String.eqb skip_spaces].
    destruct (Ascii.eqb_spec c "_"%char) as [->|Hn]; [discriminate|].
    replace (1 * v)%Z with v by lia.
    destruct c as [[] [] [] [] [] [] [] []]; try reflexivity; congruence. }
  exact Hgoal.
Qed.

Lemma all_hex_split n : ∀ s r,
  all_hex n s = Some r →
  ∃ h, s = h +:+ r ∧ String.length h = n ∧ hex_only h = true.
Proof.
  induction n as [|n IH]; intros s r H; cbn in H.
  - exists EmptyString. inversion H. auto.
  - destruct s as [|c s]; [discriminate|].
    destruct (is_hex c) eqn:Hc; [|discriminate].
    destruct (IH s r H) as (h & -> & Hl & Hh).
    exists (String c h). cbn. rewrite Hc, Hl, Hh. auto.
Qed.

Lemma hyphen_then_split n s r :
  hyphen_then n s = Some r →
  ∃ h, s = String "-"%char (h +:+ r) ∧ String.length h = n ∧ hex_only h = true.
Proof.
  unfold hyphen_then. destruct s as [|c s]; [discriminate|].
  destruct (Ascii.eqb_spec c "-"%char) as [->|Hc].
  - intros H. destruct (all_hex_split n s r H) as (h & -> & ? & ?). eauto.
  - destruct c as [[] [] [] [] [] [] [] []]; try discriminate. congruence.
Qed.

(** The five groups of a canonical identifier. *)
Lemma canonical_split s :
  canonical s = true →
  ∃ a b c d e,
    s = a +:+ String "-"%char (b +:+ String "-"%char
          (c +:+ String "-"%char (d +:+ String "-"%char e))) ∧
    String.length (a +:+ b +:+ c +:+ d +:+ e) = 32 ∧
    hex_only a = true ∧ hex_only b = true ∧ hex_only c = true ∧
    hex_only d = true ∧ hex_only e = true ∧ a ≠ EmptyString.
Proof.
  unfold canonical. intros H.
  destruct (all_hex 8 s) as [s1|] eqn:H1; [|discriminate].
  destruct (hyphen_then 4 s1) as [s2|] eqn:H2; [|discriminate].
  destruct (hyphen_then 4 s2) as [s3|] eqn:H3; [|discriminate].
  destruct (hyphen_then 4 s3) as [s4|] eqn:H4; [|discriminate].
  destruct (hyphen_then 12 s4) as [[|]|] eqn:H5; try discriminate.
  apply all_hex_split in H1 as (a & -> & La & Ha).
  apply hyphen_then_split in H2 as (b & -> & Lb & Hb).
  apply hyphen_then_split in H3 as (c & -> & Lc & Hc).
  apply hyphen_then_split in H4 as (d & -> & Ld & Hd).
  apply hyphen_then_split in H5 as (e & -> & Le & He).
  exists a, b, c, d, (e +:+ EmptyString).
  rewrite !length_app, !hex_only_app, La, Lb, Lc, Ld, Le, Ha, Hb, Hc, Hd, He.
  repeat split. destruct a; [discriminate La|congruence].
Qed.

Lemma remove_hyphen_group h r :
  hex_only h = true →
  remove "-" (h +:+ String "-"%char r) = h +:+ remove "-" r.
Proof.
  intros Hh. rewrite remove_hyphen_app.
  rewrite (remove_absent "-"%char EmptyString h)
    by (apply hex_only_no_char; [reflexivity|exact Hh]).
  reflexivity.
Qed.

Lemma mem_app a s t : mem a (s +:+ t) = mem a s || mem a t.
Proof.
  induction s as [|c s IH]; [reflexivity|].
  rewrite append_cons. cbn [mem]. destruct (Ascii.eqb a c); [reflexivity|exact IH].
Qed.

(** Text made of hexadecimal digits and hyphens carries no decoration
    other than the hyphens. *)
Lemma undecorated_plain x :
  hex_or_hyphen x = true → undecorated x = remove "-" x.
Proof.
  intros Hx. unfold undecorated.
  rewrite (remove_absent "u"%char "rn:" x)
    by (apply hex_or_hyphen_no_char; [reflexivity|reflexivity|exact Hx]).
  rewrite (remove_absent "u"%char "uid:" x)
    by (apply hex_or_hyphen_no_char; [reflexivity|reflexivity|exact Hx]).
  f_equal. unfold strip.
  assert (lstrip "{}" x = x) as ->.
  { destruct x as [|c x]; [reflexivity|]. apply lstrip_absent.
    cbn in Hx. apply andb_prop in Hx as [Hc _]. cbn [mem].
    destruct (Ascii.eqb_spec c "{"%char) as [->|_]; [discriminate Hc|].
    destruct (Ascii.eqb_spec c "}"%char) as [->|_]; [discriminate Hc|].
    reflexivity. }
  apply rstrip_absent. intros a Ha. cbn [mem] in Ha.
  apply hex_or_hyphen_no_char; [| |exact Hx];
    destruct (Ascii.eqb_spec a "{"%char) as [E|_];
    [rewrite E; reflexivity| |rewrite E; reflexivity|];
    (destruct (Ascii.eqb_spec a "}"%char) as [E|_];
     [rewrite E; reflexivity|discriminate Ha]).
Qed.

(** Whatever reduces to 32 hexadecimal digits is accepted. *)
Lemma valid_of_undecorated x h :
  undecorated x = h → hex_only h = true → String.length h = 32 →
  valid_uuid x = true.
Proof.
  intros Hx Hh Hl. unfold valid_uuid, UUID. rewrite Hx, Hl. cbn [Nat.eqb].
  destruct (int16_hex_only h Hh) as (v & -> & Hv).
  { intros ->. discriminate Hl. }
  rewrite Hl in Hv. change (16 ^ Z.of_nat 32)%Z with (2 ^ 128)%Z in Hv.
  destruct (Z.leb_spec 0 v); [|lia].
  destruct (Z.ltb_spec v (2 ^ 128)); [reflexivity|lia].
Qed.

Lemma remove_hyphen_canonical a b c d e :
  hex_only a = true → hex_only b = true → hex_only c = true →
  hex_only d = true → hex_only e = true →
  remove "-" (a +:+ String "-"%char (b +:+ String "-"%char
                (c +:+ String "-"%char (d +:+ String "-"%char e))))
  = a +:+ b +:+ c +:+ d +:+ e.
Proof.
  intros Ha Hb Hc Hd He.
  rewrite !remove_hyphen_group by assumption.
  rewrite (remove_absent "-"%char EmptyString e)
    by (apply hex_only_no_char; [reflexivity|exact He]).
  reflexivity.
Qed.

Lemma hex_or_hyphen_canonical a b c d e :
  hex_only a = true → hex_only b = true → hex_only c = true →
  hex_only d = true → hex_only e = true →
  hex_or_hyphen (a +:+ String "-"%char (b +:+ String "-"%char
                   (c +:+ String "-"%char (d +:+ String "-"%char e))))
  = true.
Proof.
  intros Ha Hb Hc Hd He.
  repeat (rewrite hex_or_hyphen_app; cbn [hex_or_hyphen]).
  rewrite !hex_only_hex_or_hyphen by assumption. reflexivity.
Qed.

(** The validator never accepts text that does not reduce to 32
    characters. *)
Lemma valid_uuid_length s :
  valid_uuid s = true → String.length (undecorated s) = 32.
Proof.
  unfold valid_uuid, UUID.
  destruct (Nat.eqb_spec (String.length (undecorated s)) 32); [auto|discriminate].
Qed.

(** The accepting half: every identifier in the canonical hyphenated
    layout is accepted by the validator, and so are its unhyphenated, its
    brace-enclosed and its [urn:uuid:]-prefixed spellings. *)
Theorem validator_accepts_canonical_and_variants s :
  canonical s = true →
  valid_uuid s = true ∧
  valid_uuid (remove "-" s) = true ∧
  valid_uuid ("{" +:+ s +:+ "}") = true ∧
  valid_uuid ("urn:uuid:" +:+ s) = true.
Proof.
  intros Hs.
  destruct (canonical_split s Hs)
    as (a & b & c & d & e & -> & Hl & Ha & Hb & Hc & Hd & He & Hne).
  set (s := a +:+ String "-"%char (b +:+ String "-"%char
              (c +:+ String "-"%char (d +:+ String "-"%char e)))).
  set (h := a +:+ b +:+ c +:+ d +:+ e) in *.
  assert (Hrm : remove "-" s = h) by (apply remove_hyphen_canonical; assumption).
  assert (Hhh : hex_or_hyphen s = true)
    by (apply hex_or_hyphen_canonical; assumption).
  assert (Hh : hex_only h = true).
  { unfold h. rewrite !hex_only_app, Ha, Hb, Hc, Hd, He. reflexivity. }
  assert (Hu : mem "u"%char s = false)
    by (apply hex_or_hyphen_no_char; [reflexivity|reflexivity|exact Hhh]).
  assert (Hplain : undecorated s = h)
    by (rewrite undecorated_plain; assumption).
  repeat split.
  - exact (valid_of_undecorated s h Hplain Hh Hl).
  - rewrite Hrm. apply (valid_of_undecorated h h); [|exact Hh|exact Hl].
    rewrite undecorated_plain by (apply hex_only_hex_or_hyphen; exact Hh).
    apply remove_absent, hex_only_no_char; [reflexivity|exact Hh].
  - apply (valid_of_undecorated _ h); [|exact Hh|exact Hl].
    unfold undecorated.
    assert (Hb' : mem "u"%char ("{" +:+ s +:+ "}") = false).
    { rewrite !mem_app, Hu. reflexivity. }
    rewrite (remove_absent "u"%char "rn:" _ Hb').
    rewrite (remove_absent "u"%char "uid:" _ Hb').
    rewrite <- Hrm. f_equal. unfold strip.
    assert (lstrip "{}" ("{" +:+ s +:+ "}") = s +:+ "}") as ->.
    { change ("{" +:+ s +:+ "}") with (String "{"%char (s +:+ "}")).
      cbn [lstrip mem]. cbn [Ascii.eqb Bool.eqb].
      unfold s. destruct a as [|x a]; [congruence|].
      rewrite !append_cons. apply lstrip_absent.
      cbn in Ha. apply andb_prop in Ha as [Hx _].
      destruct (is_hex_cases x Hx) as (_ & H1 & H2 & _).
      cbn [mem]. now rewrite H1, H2. }
    rewrite rstrip_app by reflexivity.
    apply rstrip_absent. intros x Hx. cbn [mem] in Hx.
    apply hex_or_hyphen_no_char; [| |exact Hhh];
      destruct (Ascii.eqb_spec x "{"%char) as [E|_];
      [rewrite E; reflexivity| |rewrite E; reflexivity|];
      (destruct (Ascii.eqb_spec x "}"%char) as [E|_];
       [rewrite E; reflexivity|discriminate Hx]).
  - apply (valid_of_undecorated _ h); [|exact Hh|exact Hl].
    unfold undecorated.
    assert (remove "urn:" ("urn:uuid:" +:+ s) = "uuid:" +:+ remove "urn:" s)
      as -> by reflexivity.
    rewrite (remove_absent "u"%char "rn:" s Hu).
    assert (remove "uuid:" ("uuid:" +:+ s) = remove "uuid:" s)
      as -> by reflexivity.
    rewrite (remove_absent "u"%char "uid:" s Hu).
    rewrite <- Hplain. unfold undecorated.
    rewrite (remove_absent "u"%char "rn:" s Hu).
    rewrite (remove_absent "u"%char "uid:" s Hu). reflexivity.
Qed.

End Validator.

(** The accepting half at one canonical identifier. *)
Lemma validator_accepts_witness :
  canonical "12345678-1234-5678-1234-567812345678" = true ∧
  valid_uuid "12345678-1234-5678-1234-567812345678" = true ∧
  valid_uuid "12345678123456781234567812345678" = true ∧
  valid_uuid "{12345678-1234-5678-1234-567812345678}" = true ∧
  valid_uuid "urn:uuid:12345678-1234-5678-1234-567812345678" = true.
Proof.
  split; [reflexivity|].
  apply (validator_accepts_canonical_and_variants
           "12345678-1234-5678-1234-567812345678").
  reflexivity.
Defined.

(** C6, counterexample: the validator accepts 32 hexadecimal digits written
    without hyphens, which is not the canonical layout. *)
Lemma validator_accepts_unhyphenated :
  valid_uuid "12345678123456781234567812345678" = true ∧
  canonical "12345678123456781234567812345678" = false.
Proof. split; reflexivity. Qed.

(** ** Delivery *)

Section Delivery.

Implicit Types (w : world) (from to_uuid body : string).

Ltac unfold_deliver :=
  unfold ws_deliver, http_deliver, send_json_guarded, send_json, put,
    has_websocket, has_queue, websocket_writable in *;
  cbn [websocket_connections sse_queues sent queued closed next_queue] in *.

(** The two copies of the delivery code perform the same writes. *)
Lemma deliveries_write_alike from to_uuid body w :
  fst (ws_deliver from to_uuid body w) = fst (http_deliver from to_uuid body w).
Proof.
  unfold_deliver.
  destruct (websocket_connections w !! to_uuid) as [c|];
    [destruct (decide (c ∈ closed w))|];
    cbn [websocket_connections sse_queues sent queued closed next_queue];
    destruct (sse_queues w !! to_uuid); reflexivity.
Qed.

(** A delivery changes neither dictionary. *)
Lemma ws_deliver_registry from to_uuid body w :
  websocket_connections (fst (ws_deliver from to_uuid body w))
    = websocket_connections w ∧
  sse_queues (fst (ws_deliver from to_uuid body w)) = sse_queues w.
Proof.
  unfold_deliver.
  destruct (websocket_connections w !! to_uuid) as [c|];
    [destruct (decide (c ∈ closed w))|];
    cbn [websocket_connections sse_queues sent queued closed next_queue];
    destruct (sse_queues w !! to_uuid); split; reflexivity.
Qed.

Lemma http_deliver_registry from to_uuid body w :
  websocket_connections (fst (http_deliver from to_uuid body w))
    = websocket_connections w ∧
  sse_queues (fst (http_deliver from to_uuid body w)) = sse_queues w.
Proof. rewrite <- deliveries_write_alike. apply ws_deliver_registry. Qed.

(** What the WebSocket handler reports: presence of a slot. *)
Lemma ws_deliver_result from to_uuid body w :
  snd (ws_deliver from to_uuid body w)
  = if has_websocket w to_uuid || has_queue w to_uuid
    then Delivered else PeerOffline.
Proof.
  unfold_deliver.
  destruct (websocket_connections w !! to_uuid) as [c|];
    [destruct (decide (c ∈ closed w))|];
    cbn [websocket_connections sse_queues sent queued closed next_queue];
    destruct (sse_queues w !! to_uuid); reflexivity.
Qed.

(** What the HTTP handler reports: a write that was accepted. *)
Lemma http_deliver_result from to_uuid body w :
  snd (http_deliver from to_uuid body w)
  = if websocket_writable w to_uuid || has_queue w to_uuid
    then Delivered else PeerOffline.
Proof.
  unfold_deliver.
  destruct (websocket_connections w !! to_uuid) as [c|];
    [destruct (decide (c ∈ closed w))|];
    cbn [websocket_connections sse_queues sent queued closed next_queue];
    destruct (sse_queues w !! to_uuid);
    try rewrite bool_decide_eq_true_2 by assumption;
    try rewrite bool_decide_eq_false_2 by (intros ?; contradiction);
    reflexivity.
Qed.

Lemma writable_has_websocket w id :
  websocket_writable w id = true → has_websocket w id = true.
Proof.
  unfold websocket_writable, has_websocket.
  destruct (websocket_connections w !! id); [reflexivity|].
  intros H. discriminate H.
Qed.

(** Where the two handlers agree and where the HTTP handler departs: a
    delivery to an identifier with no slot is reported as PeerOffline by both
    handlers; a delivery to an identifier with a queue, or with a WebSocket
    that accepts the write, is reported as Delivered by both handlers; and
    the HTTP handler reports PeerOffline when the only slot is a WebSocket
    whose write fails. *)
Theorem delivery_result_by_accepted_write from to_uuid body w :
  (has_websocket w to_uuid = false → has_queue w to_uuid = false →
     snd (ws_deliver from to_uuid body w) = PeerOffline ∧
     snd (http_deliver from to_uuid body w) = PeerOffline) ∧
  (websocket_writable w to_uuid || has_queue w to_uuid = true →
     snd (ws_deliver from to_uuid body w) = Delivered ∧
     snd (http_deliver from to_uuid body w) = Delivered) ∧
  (has_websocket w to_uuid = true → websocket_writable w to_uuid = false →
     has_queue w to_uuid = false →
     snd (http_deliver from to_uuid body w) = PeerOffline).
Proof.
  rewrite ws_deliver_result, http_deliver_result.
  split; [|split].
  - intros Hws Hq. rewrite Hws, Hq.
    destruct (websocket_writable w to_uuid) eqn:E; [|auto].
    apply writable_has_websocket in E. congruence.
  - intros Hacc. rewrite Hacc. split; [|reflexivity].
    destruct (websocket_writable w to_uuid) eqn:E.
    + now rewrite (writable_has_websocket _ _ E).
    + cbn in Hacc. rewrite Hacc. now rewrite orb_true_r.
  - intros _ Hwr Hq. now rewrite Hwr, Hq.
Qed.

(** Outside the case of a WebSocket slot whose write fails, the two
    handlers report the same result. *)
Lemma deliveries_agree_when_write_accepted from to_uuid body w :
  has_websocket w to_uuid = websocket_writable w to_uuid →
  ws_deliver from to_uuid body w = http_deliver from to_uuid body w.
Proof.
  intros H. apply injective_projections.
  - apply deliveries_write_alike.
  - now rewrite ws_deliver_result, http_deliver_result, H.
Qed.

Lemma truthy_Some s : s ≠ "" → truthy (Some s) = true.
Proof.
  intros H. cbn. destruct (String.eqb_spec s ""); [contradiction|reflexivity].
Qed.

Lemma str_Some s : str (Some s) = s.
Proof. reflexivity. Qed.

Lemma valid_uuid_Some s : valid_uuid s = true → ∃ n, UUID s = Some n.
Proof. unfold valid_uuid. destruct (UUID s); [eauto|discriminate]. Qed.

(** What a delivery writes when both slots are present and the WebSocket
    accepts the write. *)
Lemma ws_deliver_both from to_uuid body c q w :
  websocket_connections w !! to_uuid = Some c →
  sse_queues w !! to_uuid = Some q →
  c ∉ closed w →
  ∃ w', ws_deliver from to_uuid body w = (w', Delivered) ∧
        frames_on c w' = frames_on c w ++ [Incoming (Message from body)] ∧
        items_on q w' = items_on q w ++ [Message from body].
Proof.
  intros Hc Hq Hopen. unfold_deliver. rewrite Hc.
  destruct (decide (c ∈ closed w)); [contradiction|].
  cbn [websocket_connections sse_queues sent queued closed next_queue].
  rewrite Hq. eexists. split; [reflexivity|].
  unfold frames_on, items_on.
  cbn [websocket_connections sse_queues sent queued closed next_queue].
  now rewrite !lookup_insert_eq.
Qed.

(** When an identifier has both a WebSocket slot, whose connection
    accepts writes, and a queue slot, a delivery from either handler appends
    the message to the WebSocket and to the queue, and the handler goes on to
    the success reply ([message_sent], respectively status 200). *)
Theorem delivery_reaches_both_slots websocket from to_uuid body c q w :
  from ≠ "" → to_uuid ≠ "" → body ≠ "" →
  valid_uuid from = true → valid_uuid to_uuid = true →
  websocket_connections w !! to_uuid = Some c →
  sse_queues w !! to_uuid = Some q →
  c ∉ closed w →
  ∃ w',
    frames_on c w' = frames_on c w ++ [Incoming (Message from body)] ∧
    items_on q w' = items_on q w ++ [Message from body] ∧
    on_message websocket (Some from) (Some to_uuid) (Some body) w
      = reply websocket (MessageSent to_uuid) (Some from) w' ∧
    send_message_http
      (Some (SendRequest (Some from) (Some to_uuid) (Some body))) w
      = (Response 200 true "Message sent successfully", w').
Proof.
  intros Hf Ht Hb Hvf Hvt Hc Hq Hopen.
  destruct (ws_deliver_both from to_uuid body c q w Hc Hq Hopen)
    as (w' & Hd & Hframes & Hitems).
  exists w'. split; [exact Hframes|]. split; [exact Hitems|].
  assert (Hh : http_deliver from to_uuid body w = (w', Delivered)).
  { rewrite <- Hd. symmetry. apply deliveries_agree_when_write_accepted.
    unfold has_websocket, websocket_writable. rewrite Hc.
    now rewrite bool_decide_eq_true_2. }
  split.
  - unfold on_message.
    rewrite !truthy_Some by assumption. cbn [negb orb].
    rewrite !str_Some. now rewrite Hd.
  - unfold send_message_http.
    cbn [req_from_uuid req_to_uuid req_text].
    rewrite !truthy_Some by assumption. cbn [negb orb].
    rewrite !str_Some.
    destruct (valid_uuid_Some _ Hvf) as (? & ->).
    destruct (valid_uuid_Some _ Hvt) as (? & ->).
    now rewrite Hh.
Qed.

(** When the WebSocket slot does not accept the write, the message still
    reaches the queue and the sender still gets the success reply. *)
Lemma delivery_with_broken_websocket from to_uuid body c q w :
  websocket_connections w !! to_uuid = Some c →
  sse_queues w !! to_uuid = Some q →
  c ∈ closed w →
  ∃ w', ws_deliver from to_uuid body w = (w', Delivered) ∧
        http_deliver from to_uuid body w = (w', Delivered) ∧
        frames_on c w' = frames_on c w ∧
        items_on q w' = items_on q w ++ [Message from body].
Proof.
  intros Hc Hq Hclosed. unfold_deliver. rewrite Hc.
  destruct (decide (c ∈ closed w)); [|contradiction].
  rewrite Hq. eexists. repeat split.
  unfold items_on.
  cbn [websocket_connections sse_queues sent queued closed next_queue].
  now rewrite lookup_insert_eq.
Qed.

(** C10: the dictionaries are keyed by the text of the identifier.  After
    a session registered under one spelling, a delivery addressed to any
    other text that has no slot of its own is reported as PeerOffline by
    both handlers, whether or not the two texts denote the same 128-bit
    value. *)
Theorem delivery_keyed_by_spelling websocket registered addressed from body
    user_uuid w w1 :
  registered ≠ addressed →
  on_register websocket (Some registered) w = Next user_uuid w1 →
  has_websocket w addressed = false →
  has_queue w addressed = false →
  snd (ws_deliver from addressed body w1) = PeerOffline ∧
  snd (http_deliver from addressed body w1) = PeerOffline.
Proof.
  intros Hne Hreg Hws Hq.
  assert (has_websocket w1 addressed = false ∧ has_queue w1 addressed = false)
    as [Hws1 Hq1].
  { unfold on_register, reply, send_json in Hreg.
    unfold has_websocket, has_queue in *.
    rewrite !str_Some in Hreg.
    destruct (negb (truthy (Some registered)));
      [|destruct (UUID registered)];
      cbn [websocket_connections sse_queues sent queued closed next_queue
           set_websocket_connections] in Hreg;
      destruct (decide (websocket ∈ closed w)); try discriminate Hreg;
      inversion Hreg; subst;
      cbn [websocket_connections sse_queues sent queued closed next_queue];
      rewrite ?lookup_insert_ne by exact Hne; auto. }
  rewrite ws_deliver_result, http_deliver_result, Hws1, Hq1.
  destruct (websocket_writable w1 addressed) eqn:E; [|auto].
  apply writable_has_websocket in E. congruence.
Qed.

(** The three cases of the delivery result occur. *)
Example delivery_cases_occur :
  (has_websocket empty_world bob = false ∧ has_queue empty_world bob = false) ∧
  websocket_writable both_world bob || has_queue both_world bob = true ∧
  (has_websocket stale_world bob = true ∧
   websocket_writable stale_world bob = false ∧
   has_queue stale_world bob = false).
Proof. repeat split. Qed.

End Delivery.

(** The three cases of [delivery_result_by_accepted_write], at the sample
    states. *)
Lemma delivery_result_witness :
  (snd (ws_deliver alice bob "hi" empty_world) = PeerOffline ∧
   snd (http_deliver alice bob "hi" empty_world) = PeerOffline) ∧
  (snd (ws_deliver alice bob "hi" both_world) = Delivered ∧
   snd (http_deliver alice bob "hi" both_world) = Delivered) ∧
  snd (http_deliver alice bob "hi" stale_world) = PeerOffline.
Proof.
  split; [|split].
  - apply (delivery_result_by_accepted_write alice bob "hi" empty_world);
      reflexivity.
  - apply (delivery_result_by_accepted_write alice bob "hi" both_world).
    reflexivity.
  - apply (delivery_result_by_accepted_write alice bob "hi" stale_world);
      reflexivity.
Defined.

(** C1, the failing input: [bob] has a WebSocket slot, the write on it
    fails, and the HTTP handler answers 404 "not online", where the
    WebSocket handler reports a delivery for every registered slot
    ([ws_deliver_result]). *)
Lemma http_offline_despite_registered_slot :
  has_websocket stale_world bob = true ∧
  send_message_http (Some (SendRequest (Some alice) (Some bob) (Some "hi")))
    stale_world
  = (Response 404 false (not_online bob), stale_world) ∧
  snd (ws_deliver alice bob "hi" stale_world) = Delivered.
Proof. repeat split. Qed.

(** C2, the diverging input: in the same state, for the same sender,
    recipient and text, the WebSocket handler answers [message_sent] and the
    HTTP handler answers 404 "not online"; neither writes anything to the
    recipient. *)
Lemma handlers_disagree_on_broken_slot :
  ws_deliver alice bob "hi" stale_world = (stale_world, Delivered) ∧
  http_deliver alice bob "hi" stale_world = (stale_world, PeerOffline) ∧
  (∃ w', on_event 1 (Some alice) (Send (Some bob) (Some "hi")) stale_world
           = Next (Some alice) w' ∧
         frames_on 1 w' = [MessageSent bob]) ∧
  fst (send_message_http
         (Some (SendRequest (Some alice) (Some bob) (Some "hi"))) stale_world)
  = Response 404 false (not_online bob).
Proof.
  split; [reflexivity|]. split; [reflexivity|]. split; [|reflexivity].
  eexists. split; reflexivity.
Qed.

(** The same with [bob] registered on WebSocket 7 and on queue 0. *)
Lemma delivery_reaches_both_slots_witness :
  ∃ w',
    frames_on 7 w' = frames_on 7 both_world ++ [Incoming (Message alice "hi")] ∧
    items_on 0 w' = items_on 0 both_world ++ [Message alice "hi"] ∧
    on_message 1 (Some alice) (Some bob) (Some "hi") both_world
      = reply 1 (MessageSent bob) (Some alice) w' ∧
    send_message_http (Some (SendRequest (Some alice) (Some bob) (Some "hi")))
      both_world
      = (Response 200 true "Message sent successfully", w').
Proof.
  apply (delivery_reaches_both_slots 1 alice bob "hi" 7 0 both_world);
    try discriminate; reflexivity.
Defined.

(** C10, witness: two spellings of one 128-bit value, differing in case. *)
Lemma delivery_keyed_by_spelling_witness :
  UUID bob_upper = UUID bob_lower ∧
  valid_uuid bob_upper = true ∧ valid_uuid bob_lower = true ∧
  snd (ws_deliver alice bob_lower "hi"
         (world_of (on_register 7 (Some bob_upper) empty_world)))
    = PeerOffline ∧
  snd (http_deliver alice bob_lower "hi"
         (world_of (on_register 7 (Some bob_upper) empty_world)))
    = PeerOffline.
Proof.
  split; [reflexivity|]. split; [reflexivity|]. split; [reflexivity|].
  apply (delivery_keyed_by_spelling 7 bob_upper bob_lower alice "hi"
           (Some bob_upper) empty_world);
    [discriminate|reflexivity|reflexivity|reflexivity].
Defined.

(** ** Sessions and the registry *)

Section Sessions.

Implicit Types (w : world) (id : string) (websocket : nat).

Ltac unfold_register :=
  unfold on_register, reply, send_json, set_websocket_connections in *;
  cbn [websocket_connections sse_queues sent queued closed next_queue] in *.

(** A successful registration on a connected WebSocket. *)
Lemma on_register_valid websocket id w :
  id ≠ "" → valid_uuid id = true → websocket ∉ closed w →
  ∃ w', on_register websocket (Some id) w = Next (Some id) w' ∧
        websocket_connections w' = <[id := websocket]> (websocket_connections w) ∧
        sse_queues w' = sse_queues w ∧
        closed w' = closed w.
Proof.
  intros Hne Hv Hopen. unfold_register.
  rewrite (truthy_Some id Hne), str_Some. cbn [negb].
  unfold valid_uuid in Hv. destruct (UUID id); [|discriminate].
  cbn [websocket_connections sse_queues sent queued closed next_queue].
  destruct (decide (websocket ∈ closed w)); [contradiction|].
  eexists. split; [reflexivity|]. repeat split.
Qed.

(** A rejected ["register"] event leaves both dictionaries as they were;
    the local variable takes the rejected value. *)
Lemma on_register_rejected websocket (uuid : option string) w :
  truthy uuid = false ∨ valid_uuid (str uuid) = false →
  websocket_connections (world_of (on_register websocket uuid w))
    = websocket_connections w ∧
  sse_queues (world_of (on_register websocket uuid w)) = sse_queues w ∧
  user_of (on_register websocket uuid w) = uuid.
Proof.
  intros H. unfold_register.
  destruct (truthy uuid); cbn [negb].
  - destruct H as [H|H]; [discriminate|].
    unfold valid_uuid in H. destruct (UUID (str uuid)); [discriminate|].
    destruct (decide (websocket ∈ closed w)); repeat split.
  - destruct (decide (websocket ∈ closed w)); repeat split.
Qed.

(** The [except] clauses touch the WebSocket dictionary only, and only at
    the key held by the local variable. *)
Lemma on_exit_frame e (user_uuid : option string) w :
  sse_queues (on_exit e user_uuid w) = sse_queues w ∧
  sent (on_exit e user_uuid w) = sent w ∧
  queued (on_exit e user_uuid w) = queued w ∧
  ∀ other, Some other ≠ user_uuid →
    websocket_connections (on_exit e user_uuid w) !! other
    = websocket_connections w !! other.
Proof.
  unfold on_exit, set_websocket_connections.
  destruct e, (truthy user_uuid) eqn:Ht; repeat split; intros other Hne;
    cbn [websocket_connections]; try reflexivity;
    destruct user_uuid as [u|]; try discriminate Ht;
    rewrite str_Some; apply lookup_delete_ne; congruence.
Qed.

Lemma on_exit_removes e id w :
  e ≠ CancelledError → id ≠ "" →
  websocket_connections (on_exit e (Some id) w) !! id = None.
Proof.
  intros He Hne. unfold on_exit, set_websocket_connections.
  rewrite (truthy_Some id Hne), str_Some.
  destruct e; try contradiction; cbn [websocket_connections];
    apply lookup_delete_eq.
Qed.

(** C8: when the session bound to [X] ends, the queue dictionary is
    unchanged (so any push slot of [X] stays), every WebSocket slot stored
    under another identifier is unchanged, and nothing is written to any
    WebSocket or queue; on a disconnect or a fault the WebSocket slot of [X]
    itself is removed. *)
Theorem disconnect_touches_one_websocket_slot e X w :
  sse_queues (on_exit e (Some X) w) = sse_queues w ∧
  (∀ Y, Y ≠ X →
     websocket_connections (on_exit e (Some X) w) !! Y
     = websocket_connections w !! Y) ∧
  sent (on_exit e (Some X) w) = sent w ∧
  queued (on_exit e (Some X) w) = queued w ∧
  (e ≠ CancelledError → X ≠ "" →
     websocket_connections (on_exit e (Some X) w) !! X = None).
Proof.
  destruct (on_exit_frame e (Some X) w) as (Hq & Hs & Hi & Hother).
  repeat split; try assumption.
  - intros Y HY. apply Hother. congruence.
  - apply on_exit_removes.
Qed.

(** A subscription with a valid identifier stores a fresh queue. *)
Lemma sse_endpoint_valid id w :
  id ≠ "" → valid_uuid id = true →
  ∃ w', sse_endpoint (Some id) w = (SseStream id (next_queue w), w') ∧
        sse_queues w' = <[id := next_queue w]> (sse_queues w) ∧
        websocket_connections w' = websocket_connections w ∧
        next_queue w' = S (next_queue w).
Proof.
  intros Hne Hv. unfold sse_endpoint.
  rewrite (truthy_Some id Hne), str_Some. cbn [negb].
  unfold valid_uuid in Hv. destruct (UUID id); [|discriminate].
  eexists. split; [reflexivity|]. repeat split.
Qed.

Lemma offline_without_slots from to_uuid body w :
  websocket_connections w !! to_uuid = None →
  sse_queues w !! to_uuid = None →
  snd (ws_deliver from to_uuid body w) = PeerOffline ∧
  snd (http_deliver from to_uuid body w) = PeerOffline.
Proof.
  intros Hws Hq. rewrite ws_deliver_result, http_deliver_result.
  unfold has_websocket, websocket_writable, has_queue. rewrite Hws, Hq.
  split; reflexivity.
Qed.

(** C9: unregistration is keyed by the identifier.  Two sessions register
    the same valid identifier on the same transport; the later
    registration replaces the earlier one; when the earlier session ends (a
    WebSocket session by a disconnect or a fault, a push subscription by
    cancellation of its stream), the slot of the later, still connected
    session is removed, and if the identifier has no slot on the other
    transport a delivery to it is reported as PeerOffline. *)
Theorem older_session_end_unregisters_newer id c_old c_new e from body w :
  id ≠ "" → valid_uuid id = true →
  c_old ∉ closed w → c_new ∉ closed w →
  e ≠ CancelledError →
  (let first := on_register c_old (Some id) w in
   let second := on_register c_new (Some id) (world_of first) in
   let after := on_exit e (user_of first) (world_of second) in
   websocket_connections (world_of first) !! id = Some c_old ∧
   websocket_connections (world_of second) !! id = Some c_new ∧
   websocket_connections after !! id = None ∧
   (sse_queues w !! id = None →
      snd (ws_deliver from id body after) = PeerOffline ∧
      snd (http_deliver from id body after) = PeerOffline)) ∧
  (let first := sse_endpoint (Some id) w in
   let second := sse_endpoint (Some id) (snd first) in
   let after := sse_cancelled id (snd second) in
   fst first = SseStream id (next_queue w) ∧
   fst second = SseStream id (S (next_queue w)) ∧
   sse_queues (snd second) !! id = Some (S (next_queue w)) ∧
   sse_queues after !! id = None ∧
   (websocket_connections w !! id = None →
      snd (ws_deliver from id body after) = PeerOffline ∧
      snd (http_deliver from id body after) = PeerOffline)).
Proof.
  intros Hne Hv Hold Hnew He. split.
  - destruct (on_register_valid c_old id w Hne Hv Hold)
      as (w1 & E1 & Hws1 & Hq1 & Hc1).
    rewrite E1. cbn [world_of user_of].
    destruct (on_register_valid c_new id w1 Hne Hv) as (w2 & E2 & Hws2 & Hq2 & Hc2).
    { now rewrite Hc1. }
    rewrite E2. cbn [world_of user_of].
    split; [rewrite Hws1; apply lookup_insert_eq|].
    split; [rewrite Hws2; apply lookup_insert_eq|].
    split; [apply on_exit_removes; [exact He|exact Hne]|].
    intros Hq. apply offline_without_slots.
    + apply on_exit_removes; [exact He|exact Hne].
    + destruct (on_exit_frame e (Some id) w2) as (-> & _).
      now rewrite Hq2, Hq1.
  - destruct (sse_endpoint_valid id w Hne Hv) as (w1 & E1 & Hq1 & Hws1 & Hn1).
    rewrite E1. cbn [fst snd].
    destruct (sse_endpoint_valid id w1 Hne Hv) as (w2 & E2 & Hq2 & Hws2 & Hn2).
    rewrite E2, Hn1. cbn [fst snd].
    split; [reflexivity|]. split; [reflexivity|].
    split; [rewrite Hq2, Hn1; apply lookup_insert_eq|].
    unfold sse_cancelled, set_sse_queues. cbn [sse_queues websocket_connections].
    split; [apply lookup_delete_eq|].
    intros Hws. apply offline_without_slots;
      cbn [sse_queues websocket_connections].
    + now rewrite Hws2, Hws1.
    + apply lookup_delete_eq.
Qed.

(** A reply on the session's own WebSocket changes neither dictionary. *)
Lemma reply_registry websocket f (user_uuid : option string) w :
  websocket_connections (world_of (reply websocket f user_uuid w))
    = websocket_connections w ∧
  sse_queues (world_of (reply websocket f user_uuid w)) = sse_queues w ∧
  user_of (reply websocket f user_uuid w) = user_uuid.
Proof.
  unfold reply, send_json.
  destruct (decide (websocket ∈ closed w)); repeat split.
Qed.

(** One pass through the loop body keeps every entry that points to the
    session's own WebSocket. *)
Lemma on_event_keeps_own_slot websocket (user_uuid : option string) ev id w :
  websocket_connections w !! id = Some websocket →
  websocket_connections (world_of (on_event websocket user_uuid ev w)) !! id
    = Some websocket.
Proof.
  intros Hid. destruct ev as [uuid|to_uuid body|]; cbn [on_event world_of].
  - unfold on_register.
    destruct (negb (truthy uuid));
      [|destruct (UUID (str uuid))];
      rewrite (proj1 (reply_registry _ _ _ _)); try exact Hid.
    unfold set_websocket_connections. cbn [websocket_connections].
    destruct (decide (str uuid = id)) as [->|Hne].
    + apply lookup_insert_eq.
    + now rewrite lookup_insert_ne.
  - unfold on_message.
    destruct (negb (truthy user_uuid));
      [|destruct (negb (truthy to_uuid) || negb (truthy body))];
      try (rewrite (proj1 (reply_registry _ _ _ _)); exact Hid).
    pose proof (ws_deliver_registry (str user_uuid) (str to_uuid) (str body) w)
      as [Hws _].
    destruct (ws_deliver (str user_uuid) (str to_uuid) (str body) w) as [w' []];
      cbn [fst] in Hws; rewrite (proj1 (reply_registry _ _ _ _)), Hws; exact Hid.
  - exact Hid.
Qed.

Lemma receive_loop_keeps_own_slot websocket evs : ∀ (user_uuid : option string) id w,
  websocket_connections w !! id = Some websocket →
  websocket_connections (world_of (receive_loop websocket user_uuid evs w)) !! id
    = Some websocket.
Proof.
  induction evs as [|ev evs IH]; intros user_uuid id w Hid; cbn [receive_loop].
  - exact Hid.
  - pose proof (on_event_keeps_own_slot websocket user_uuid ev id w Hid) as H1.
    destruct (on_event websocket user_uuid ev w) as [u' w'|e u' w'];
      cbn [world_of] in *; [apply IH|]; exact H1.
Qed.

(** The general form of the stale slot: a session registered under [id]
    goes on receiving events; if at its end the local variable no longer
    holds [id], the entry of [id] survives the cleanup and still points to
    the WebSocket of the ended session. *)
Lemma stale_slot_when_rebound websocket id evs e w :
  websocket_connections w !! id = Some websocket →
  user_of (receive_loop websocket (Some id) evs w) ≠ Some id →
  websocket_connections
    (on_exit e (user_of (receive_loop websocket (Some id) evs w))
       (world_of (receive_loop websocket (Some id) evs w))) !! id
    = Some websocket.
Proof.
  intros Hid Hne.
  destruct (on_exit_frame e (user_of (receive_loop websocket (Some id) evs w))
              (world_of (receive_loop websocket (Some id) evs w)))
    as (_ & _ & _ & Hother).
  rewrite Hother by congruence.
  now apply receive_loop_keeps_own_slot.
Qed.

(** A session that registers once, with a valid identifier, and then ends
    by a disconnect or a fault leaves no slot under that identifier. *)
Lemma single_registration_cleanup websocket id e w :
  id ≠ "" → valid_uuid id = true → e ≠ CancelledError →
  websocket_connections (websocket_endpoint websocket [Register (Some id)] e w)
    !! id = None.
Proof.
  intros Hne Hv He. unfold websocket_endpoint.
  cbn [receive_loop on_event]. unfold_register.
  rewrite (truthy_Some id Hne), str_Some. cbn [negb].
  unfold valid_uuid in Hv. destruct (UUID id); [|discriminate].
  cbn [websocket_connections sse_queues sent queued closed next_queue].
  destruct (decide (websocket ∈ closed w)).
  - apply on_exit_removes; [discriminate|exact Hne].
  - apply on_exit_removes; assumption.
Qed.

(** The HTTP handler rejects a malformed recipient before any lookup. *)
Lemma http_rejects_malformed_recipient from to_uuid body w :
  from ≠ "" → to_uuid ≠ "" → body ≠ "" → valid_uuid to_uuid = false →
  send_message_http (Some (SendRequest (Some from) (Some to_uuid) (Some body))) w
  = (Response 400 false "Invalid UUID", w).
Proof.
  intros Hf Ht Hb Hv. unfold send_message_http.
  cbn [req_from_uuid req_to_uuid req_text].
  rewrite !truthy_Some by assumption. cbn [negb orb]. rewrite !str_Some.
  unfold valid_uuid in Hv.
  destruct (UUID to_uuid); [discriminate|]. now destruct (UUID from).
Qed.

(** The ["message"] branch never validates the recipient: whatever text is
    given, the two dictionaries are consulted and the reply is one of
    [message_sent] and "not online". *)
Lemma on_message_replies websocket from to_uuid body w :
  from ≠ "" → to_uuid ≠ "" → body ≠ "" →
  on_message websocket (Some from) (Some to_uuid) (Some body) w
  = reply websocket
      (if has_websocket w to_uuid || has_queue w to_uuid
       then MessageSent to_uuid else Error (not_online to_uuid))
      (Some from) (fst (ws_deliver from to_uuid body w)).
Proof.
  intros Hf Ht Hb. unfold on_message.
  rewrite !truthy_Some by assumption. cbn [negb orb]. rewrite !str_Some.
  pose proof (ws_deliver_result from to_uuid body w) as Hr.
  destruct (ws_deliver from to_uuid body w) as [w' r]. cbn [fst snd] in *.
  subst r. now destruct (has_websocket w to_uuid || has_queue w to_uuid).
Qed.

End Sessions.

(** C8, witness: the session bound to [bob] disconnects while [bob] also
    has a queue. *)
Lemma disconnect_touches_one_websocket_slot_witness :
  sse_queues (on_exit WebSocketDisconnect (Some bob) both_world) !! bob = Some 0 ∧
  websocket_connections (on_exit WebSocketDisconnect (Some bob) both_world) !! bob
    = None.
Proof.
  destruct (disconnect_touches_one_websocket_slot WebSocketDisconnect bob both_world)
    as (Hq & _ & _ & _ & Hgone).
  split.
  - rewrite Hq. reflexivity.
  - apply Hgone; discriminate.
Defined.

(** C9, witness: two sessions, then two subscriptions, under [bob]. *)
Lemma older_session_end_unregisters_newer_witness :
  websocket_connections
    (on_exit WebSocketDisconnect (Some bob)
       (world_of (on_register 2 (Some bob)
          (world_of (on_register 1 (Some bob) empty_world))))) !! bob = None ∧
  sse_queues
    (sse_cancelled bob
       (snd (sse_endpoint (Some bob)
          (snd (sse_endpoint (Some bob) empty_world))))) !! bob = None.
Proof.
  destruct (older_session_end_unregisters_newer bob 1 2 WebSocketDisconnect
              alice "hi" empty_world)
    as [(_ & _ & H1 & _) (_ & _ & _ & H2 & _)];
    [discriminate|reflexivity|vm_compute; discriminate
    |vm_compute; discriminate|discriminate|].
  split; [exact H1|exact H2].
Defined.

(** C3, the failing input: a session registers [alice] and then receives a
    second ["register"] event (malformed, empty, or valid for another
    identifier), or is cancelled; after it has ended the dictionary still
    maps [alice] to the WebSocket of the ended session. *)
Lemma session_end_leaves_stale_slot :
  websocket_connections
    (websocket_endpoint 1 [Register (Some alice); Register (Some "not-a-uuid")]
       WebSocketDisconnect empty_world) !! alice = Some 1 ∧
  websocket_connections
    (websocket_endpoint 1 [Register (Some alice); Register None]
       WebSocketDisconnect empty_world) !! alice = Some 1 ∧
  websocket_connections
    (websocket_endpoint 1 [Register (Some alice); Register (Some bob)]
       Exception empty_world) !! alice = Some 1 ∧
  websocket_connections
    (websocket_endpoint 1 [Register (Some alice)] CancelledError empty_world)
    !! alice = Some 1.
Proof. repeat split. Qed.

(** C4, the failing input: a registered session sends a message to
    ["not-a-uuid"]; the handler looks the text up and answers "not online",
    where the HTTP handler answers "Invalid UUID". *)
Lemma ws_message_skips_recipient_check :
  valid_uuid "not-a-uuid" = false ∧
  (∃ w', on_event 1 (Some alice) (Send (Some "not-a-uuid") (Some "hi")) empty_world
           = Next (Some alice) w' ∧
         frames_on 1 w' = [Error "Peer not-a-uuid is not online"]) ∧
  send_message_http
    (Some (SendRequest (Some alice) (Some "not-a-uuid") (Some "hi"))) empty_world
  = (Response 400 false "Invalid UUID", empty_world).
Proof.
  split; [reflexivity|]. split; [|reflexivity].
  eexists. split; reflexivity.
Qed.

(** C5, the failing input: a session bound to [alice] receives a malformed
    or an empty ["register"] event; the error is sent and the dictionaries
    are unchanged, but the session's identifier is replaced by the rejected
    value.  A session that never registered can then send under the
    rejected text. *)
Lemma failed_register_rebinds_session :
  user_of (on_event 1 (Some alice) (Register (Some "not-a-uuid")) empty_world)
    = Some "not-a-uuid" ∧
  frames_on 1
    (world_of (on_event 1 (Some alice) (Register (Some "not-a-uuid")) empty_world))
    = [Error "Invalid UUID"] ∧
  user_of (on_event 1 (Some alice) (Register None) empty_world) = None ∧
  items_on 0
    (world_of (receive_loop 1 None
       [Register (Some "not-a-uuid"); Send (Some bob) (Some "hi")] both_world))
    = [Message "not-a-uuid" "hi"].
Proof. repeat split. Qed.

(** * Further properties of the handlers *)

(** ** The send endpoint *)

Section SendEndpoint.

Implicit Types (w : world) (body : option send_request).

Ltac world_fields :=
  cbn [websocket_connections sse_queues sent queued closed next_queue] in *.

(** The delivery code of the endpoint, case by case. *)
Lemma http_deliver_cases from to_uuid txt w :
  let m := Message from txt in
  let after_ws :=
    match websocket_connections w !! to_uuid with
    | Some c => send_json_guarded c (Incoming m) w
    | None => w
    end in
  fst (http_deliver from to_uuid txt w)
  = match sse_queues w !! to_uuid with
    | Some q => put q m after_ws
    | None => after_ws
    end.
Proof.
  unfold http_deliver, send_json_guarded, send_json.
  destruct (websocket_connections w !! to_uuid) as [c|];
    [destruct (decide (c ∈ closed w))|]; world_fields;
    destruct (sse_queues w !! to_uuid); reflexivity.
Qed.

Lemma http_deliver_offline_unchanged from to_uuid txt w :
  snd (http_deliver from to_uuid txt w) = PeerOffline →
  fst (http_deliver from to_uuid txt w) = w.
Proof.
  unfold http_deliver, send_json.
  destruct (websocket_connections w !! to_uuid) as [c|];
    [destruct (decide (c ∈ closed w))|]; world_fields;
    destruct (sse_queues w !! to_uuid); cbn [fst snd];
    intros H; try discriminate H; reflexivity.
Qed.

(** The shape of every answer of the endpoint. *)
Lemma send_message_http_cases body w :
  (well_formed body = false ∧
   status_code (fst (send_message_http body w)) = 400 ∧
   success (fst (send_message_http body w)) = false ∧
   snd (send_message_http body w) = w) ∨
  (well_formed body = true ∧
   ∃ data, body = Some data ∧
     fst (send_message_http body w)
     = match snd (http_deliver (str (req_from_uuid data)) (recipient body)
                    (str (req_text data)) w) with
       | Delivered => Response 200 true "Message sent successfully"
       | PeerOffline => Response 404 false (not_online (recipient body))
       end ∧
     snd (send_message_http body w)
     = fst (http_deliver (str (req_from_uuid data)) (recipient body)
              (str (req_text data)) w)).
Proof.
  destruct body as [data|]; [|left; repeat split].
  unfold send_message_http, well_formed, valid_uuid, recipient.
  destruct (truthy (req_from_uuid data)); [|left; repeat split].
  destruct (truthy (req_to_uuid data)); [|left; repeat split].
  destruct (truthy (req_text data)); [|left; repeat split].
  cbn [negb orb andb].
  destruct (UUID (str (req_from_uuid data))); [|left; repeat split].
  destruct (UUID (str (req_to_uuid data))); [|left; repeat split].
  right. split; [reflexivity|]. exists data. split; [reflexivity|].
  destruct (http_deliver _ _ _ w) as [w' []]; split; reflexivity.
Qed.

(** X1: an answer of [/api/send] that reports failure (status 400 or 404)
    comes with no effect at all: no frame was written, no item was queued
    and both dictionaries are as before. *)
Theorem http_failure_leaves_state body w :
  success (fst (send_message_http body w)) = false →
  snd (send_message_http body w) = w.
Proof.
  destruct (send_message_http_cases body w)
    as [(_ & _ & _ & Hw)|(_ & data & _ & Hr & Hw)]; [auto|].
  rewrite Hr, Hw.
  destruct (snd (http_deliver _ _ _ w)) eqn:E; cbn [success];
    [discriminate|].
  intros _. now apply http_deliver_offline_unchanged.
Qed.

(** X2: the status of the answer of [/api/send] to a body that is not
    JSON or is a JSON object whose fields [from_uuid], [to_uuid] and [text]
    are strings, [null] or absent: 400 exactly for a body that is not JSON,
    lacks a field or carries an identifier that [uuid.UUID] refuses;
    otherwise 200 when the recipient has a queue or a WebSocket that accepts
    the write, and 404 when it has neither.  Whether the sender is
    registered plays no role.  (Bodies that are JSON but not such an object
    are outside [send_request].) *)
Theorem http_status body w :
  status_code (fst (send_message_http body w))
  = if well_formed body then
      if websocket_writable w (recipient body) || has_queue w (recipient body)
      then 200 else 404
    else 400.
Proof.
  destruct (send_message_http_cases body w)
    as [(-> & -> & _)|(-> & data & _ & -> & _)]; [reflexivity|].
  rewrite http_deliver_result.
  now destruct (websocket_writable w (recipient body)
                || has_queue w (recipient body)).
Qed.

(** X3: [/api/send] never registers or unregisters anybody: whatever the
    request, both dictionaries are the same after it. *)
Theorem http_never_changes_registry body w :
  websocket_connections (snd (send_message_http body w))
    = websocket_connections w ∧
  sse_queues (snd (send_message_http body w)) = sse_queues w.
Proof.
  destruct (send_message_http_cases body w)
    as [(_ & _ & _ & ->)|(_ & data & _ & _ & ->)]; [split; reflexivity|].
  apply http_deliver_registry.
Qed.

Lemma frames_on_put q m c w : frames_on c (put q m w) = frames_on c w.
Proof. reflexivity. Qed.

Lemma items_on_send_json_guarded c f q w :
  items_on q (send_json_guarded c f w) = items_on q w.
Proof.
  unfold send_json_guarded, send_json.
  destruct (decide (c ∈ closed w)); reflexivity.
Qed.

Lemma frames_on_send_json_guarded c f c' w :
  frames_on c' (send_json_guarded c f w)
  = if decide (c' = c) then
      if decide (c ∈ closed w) then frames_on c w else frames_on c w ++ [f]
    else frames_on c' w.
Proof.
  unfold send_json_guarded, send_json.
  destruct (decide (c ∈ closed w)).
  - destruct (decide (c' = c)) as [->|]; reflexivity.
  - unfold frames_on at 1. world_fields.
    destruct (decide (c' = c)) as [->|Hne].
    + now rewrite lookup_insert_eq.
    + now rewrite lookup_insert_ne by congruence.
Qed.

Lemma items_on_put q m q' w :
  items_on q' (put q m w)
  = if decide (q' = q) then items_on q w ++ [m] else items_on q' w.
Proof.
  unfold put. unfold items_on at 1. world_fields.
  destruct (decide (q' = q)) as [->|Hne].
  - now rewrite lookup_insert_eq.
  - now rewrite lookup_insert_ne by congruence.
Qed.

(** X4: [/api/send] writes to the recipient only.  The frames of every
    WebSocket other than the one stored under the recipient, and the items
    of every queue other than the one stored under the recipient, are the
    same after the request. *)
Theorem http_writes_to_recipient_only body w c q :
  (websocket_connections w !! recipient body ≠ Some c →
     frames_on c (snd (send_message_http body w)) = frames_on c w) ∧
  (sse_queues w !! recipient body ≠ Some q →
     items_on q (snd (send_message_http body w)) = items_on q w).
Proof.
  destruct (send_message_http_cases body w)
    as [(_ & _ & _ & ->)|(_ & data & _ & _ & ->)]; [split; reflexivity|].
  rewrite http_deliver_cases. cbn zeta.
  destruct (websocket_connections w !! recipient body) as [c0|] eqn:Ec;
    destruct (sse_queues w !! recipient body) as [q0|] eqn:Eq;
    split; intros Hne;
    rewrite ?frames_on_put, ?items_on_put, ?items_on_send_json_guarded,
      ?frames_on_send_json_guarded;
    repeat case_decide; try congruence; try reflexivity.
Qed.

(** X5: an answer of [/api/send] that reports success is backed by a
    write: the message, with the sender and the text of the request, is the
    last frame of the recipient's WebSocket or the last item of the
    recipient's queue. *)
Theorem http_success_hands_over data w :
  success (fst (send_message_http (Some data) w)) = true →
  (∃ c, websocket_connections w !! str (req_to_uuid data) = Some c ∧
        frames_on c (snd (send_message_http (Some data) w))
        = frames_on c w ++ [Incoming (payload_of data)]) ∨
  (∃ q, sse_queues w !! str (req_to_uuid data) = Some q ∧
        items_on q (snd (send_message_http (Some data) w))
        = items_on q w ++ [payload_of data]).
Proof.
  destruct (send_message_http_cases (Some data) w)
    as [(_ & _ & -> & _)|(_ & data' & [= <-] & Hr & ->)]; [discriminate|].
  rewrite Hr, http_deliver_result, http_deliver_cases.
  cbn zeta. cbn [recipient]. unfold websocket_writable, has_queue, payload_of.
  destruct (sse_queues w !! str (req_to_uuid data)) as [q|] eqn:Eq.
  - intros _. right. exists q. split; [reflexivity|].
    rewrite items_on_put, decide_True by reflexivity.
    destruct (websocket_connections w !! str (req_to_uuid data));
      now rewrite ?items_on_send_json_guarded.
  - destruct (websocket_connections w !! str (req_to_uuid data)) as [c|] eqn:Ec;
      [|discriminate].
    destruct (decide (c ∈ closed w)) as [Hc|Hc].
    + rewrite bool_decide_eq_false_2 by (intros ?; contradiction). discriminate.
    + intros _. left. exists c. split; [reflexivity|].
      rewrite frames_on_send_json_guarded, decide_True by reflexivity.
      now rewrite decide_False.
Qed.

End SendEndpoint.

(** ** Runs of requests and sessions *)

Section Runs.

Implicit Types (w : world) (websocket : nat) (evs : list event).

Ltac world_fields :=
  cbn [websocket_connections sse_queues sent queued closed next_queue] in *.

(** One well-formed request to a recipient with a queue. *)
Lemma send_one_queued data q w :
  well_formed (Some data) = true →
  sse_queues w !! str (req_to_uuid data) = Some q →
  status_code (fst (send_message_http (Some data) w)) = 200 ∧
  sse_queues (snd (send_message_http (Some data) w)) = sse_queues w ∧
  items_on q (snd (send_message_http (Some data) w))
  = items_on q w ++ [payload_of data].
Proof.
  intros Hwf Hq.
  destruct (send_message_http_cases (Some data) w)
    as [(Hn & _)|(_ & data' & [= <-] & -> & ->)]; [congruence|].
  cbn [recipient]. rewrite http_deliver_result.
  unfold has_queue. rewrite Hq, orb_true_r. split; [reflexivity|].
  split; [apply http_deliver_registry|].
  rewrite http_deliver_cases. cbn zeta. rewrite Hq.
  rewrite items_on_put, decide_True by reflexivity.
  unfold payload_of.
  destruct (websocket_connections w !! str (req_to_uuid data));
    now rewrite ?items_on_send_json_guarded.
Qed.

(** X6: requests to [/api/send] for one recipient who has a queue are
    queued in the order in which they are handled, each answered with status
    200: after the run the queue holds its former items followed by one item
    per request, with the sender and the text of that request. *)
Theorem sends_are_queued_in_order id q reqs : ∀ w,
  sse_queues w !! id = Some q →
  Forall (λ data, well_formed (Some data) = true
                  ∧ str (req_to_uuid data) = id) reqs →
  items_on q (snd (send_all reqs w)) = items_on q w ++ map payload_of reqs ∧
  Forall (λ resp, status_code resp = 200) (fst (send_all reqs w)).
Proof.
  induction reqs as [|data reqs IH]; intros w Hq Hall; cbn [send_all map].
  - split; [now rewrite app_nil_r|constructor].
  - apply Forall_cons in Hall as [[Hwf Hto] Hall].
    rewrite <- Hto in Hq.
    destruct (send_one_queued data q w Hwf Hq) as (Hs & Hreg & Hitems).
    destruct (send_message_http (Some data) w) as [resp w1]. cbn [fst snd] in *.
    rewrite Hto in Hq. rewrite <- Hreg in Hq.
    destruct (IH w1 Hq Hall) as [Hi Hr].
    destruct (send_all reqs w1) as [resps w2]. cbn [fst snd] in *.
    split.
    + now rewrite Hi, Hitems, <- app_assoc.
    + now constructor.
Qed.

(** What a reply does to the state. *)
Lemma reply_cases websocket f (user_uuid : option string) w :
  ((websocket ∈ closed w) ∧
   (reply websocket f user_uuid w = Raise Exception user_uuid w)) ∨
  ((websocket ∉ closed w) ∧
   ∃ w', reply websocket f user_uuid w = Next user_uuid w' ∧
         websocket_connections w' = websocket_connections w ∧
         sse_queues w' = sse_queues w ∧
         queued w' = queued w ∧ closed w' = closed w ∧
         next_queue w' = next_queue w ∧
         frames_on websocket w' = frames_on websocket w ++ [f] ∧
         ∀ c, c ≠ websocket → frames_on c w' = frames_on c w).
Proof.
  unfold reply, send_json.
  destruct (decide (websocket ∈ closed w)) as [Hc|Hc]; [left; auto|right].
  split; [exact Hc|]. eexists. split; [reflexivity|]. world_fields.
  repeat split.
  - unfold frames_on at 1. world_fields. now rewrite lookup_insert_eq.
  - intros c Hne. unfold frames_on at 1. world_fields.
    now rewrite lookup_insert_ne by congruence.
Qed.

(** X7: a session that has not sent a ["register"] event cannot make the
    server deliver anything.  Whatever other events it sends, nothing is
    queued, no other WebSocket receives a frame, both dictionaries stay as
    they were, and, while its own connection accepts writes, every
    ["message"] event is answered with the error "Register first". *)
Theorem unregistered_session_delivers_nothing websocket evs : ∀ w,
  Forall (λ ev, is_register ev = false) evs →
  user_of (receive_loop websocket None evs w) = None ∧
  queued (world_of (receive_loop websocket None evs w)) = queued w ∧
  websocket_connections (world_of (receive_loop websocket None evs w))
    = websocket_connections w ∧
  sse_queues (world_of (receive_loop websocket None evs w)) = sse_queues w ∧
  (∀ c, c ≠ websocket →
     frames_on c (world_of (receive_loop websocket None evs w)) = frames_on c w) ∧
  (websocket ∉ closed w →
     frames_on websocket (world_of (receive_loop websocket None evs w))
     = frames_on websocket w
       ++ repeat (Error "Register first")
            (List.length (List.filter is_send evs))).
Proof.
  induction evs as [|ev evs IH]; intros w Hall; cbn [receive_loop].
  - cbn. repeat split. intros _. now rewrite app_nil_r.
  - apply Forall_cons in Hall as [Hev Hall].
    destruct ev as [uuid|to_uuid body|]; [discriminate Hev| |].
    + cbn [on_event List.filter is_send List.length repeat]. unfold on_message.
      cbn [truthy negb].
      destruct (reply_cases websocket (Error "Register first") None w)
        as [(Hc & ->)|(Hc & w' & -> & Hws & Hq & Hi & Hcl & _ & Hown & Hoth)].
      * cbn. repeat split. intros Hopen. contradiction.
      * destruct (IH w' Hall) as (Hu & Hi' & Hws' & Hq' & Hoth' & Hown').
        repeat split; try congruence.
        -- intros c Hne. now rewrite Hoth', Hoth.
        -- intros _. rewrite Hown' by now rewrite Hcl.
           rewrite Hown, <- app_assoc. reflexivity.
    + cbn [on_event List.filter is_send]. apply IH, Hall.
Qed.

(** One pass through the loop body never touches the queue dictionary, and
    stores nothing but the session's own WebSocket. *)
Lemma on_event_registry websocket (user_uuid : option string) ev w :
  sse_queues (world_of (on_event websocket user_uuid ev w)) = sse_queues w ∧
  ∀ id c,
    websocket_connections (world_of (on_event websocket user_uuid ev w)) !! id
      = Some c →
    c = websocket ∨ websocket_connections w !! id = Some c.
Proof.
  destruct ev as [uuid|to_uuid body|]; cbn [on_event world_of].
  - unfold on_register.
    destruct (negb (truthy uuid)); [|destruct (UUID (str uuid))];
      match goal with
      | |- context [reply ?a ?b ?c ?d] =>
          destruct (reply_registry a b c d) as (-> & -> & _)
      end; [split; [reflexivity|auto]| |split; [reflexivity|auto]].
    unfold set_websocket_connections. world_fields.
    split; [reflexivity|]. intros id c.
    destruct (decide (str uuid = id)) as [->|Hne].
    + rewrite lookup_insert_eq. intros [= <-]. now left.
    + rewrite lookup_insert_ne by exact Hne. auto.
  - unfold on_message.
    destruct (negb (truthy user_uuid));
      [|destruct (negb (truthy to_uuid) || negb (truthy body))].
    1,2: match goal with
         | |- context [reply ?a ?b ?c ?d] =>
             destruct (reply_registry a b c d) as (-> & -> & _)
         end; split; [reflexivity|auto].
    pose proof (ws_deliver_registry (str user_uuid) (str to_uuid) (str body) w)
      as [Hws Hq].
    destruct (ws_deliver (str user_uuid) (str to_uuid) (str body) w) as [w' []];
      cbn [fst] in *;
      match goal with
      | |- context [reply ?a ?b ?c ?d] =>
          destruct (reply_registry a b c d) as (-> & -> & _)
      end; rewrite Hws, Hq; (split; [reflexivity|auto]).
  - split; [reflexivity|auto].
Qed.

Lemma receive_loop_registry websocket evs : ∀ (user_uuid : option string) w,
  sse_queues (world_of (receive_loop websocket user_uuid evs w)) = sse_queues w ∧
  ∀ id c,
    websocket_connections (world_of (receive_loop websocket user_uuid evs w)) !! id
      = Some c →
    c = websocket ∨ websocket_connections w !! id = Some c.
Proof.
  induction evs as [|ev evs IH]; intros user_uuid w; cbn [receive_loop].
  - split; [reflexivity|auto].
  - destruct (on_event_registry websocket user_uuid ev w) as [Hq Hws].
    destruct (on_event websocket user_uuid ev w) as [u' w'|e u' w'];
      cbn [world_of] in *.
    + destruct (IH u' w') as [Hq' Hws'].
      split; [congruence|]. intros id c Hc.
      destruct (Hws' id c Hc) as [->|Hc']; auto.
    + split; [exact Hq|exact Hws].
Qed.

(** X8: a whole WebSocket session, whatever events it receives and however
    it ends, leaves the queue dictionary as it was, and every entry of the
    WebSocket dictionary after the session is either an entry that was there
    before or one that holds the session's own WebSocket.  A session cannot
    store somebody else's connection, and it cannot touch a push
    subscription. *)
Theorem session_touches_only_own_websocket websocket evs final w :
  sse_queues (websocket_endpoint websocket evs final w) = sse_queues w ∧
  ∀ id c,
    websocket_connections (websocket_endpoint websocket evs final w) !! id
      = Some c →
    c = websocket ∨ websocket_connections w !! id = Some c.
Proof.
  unfold websocket_endpoint.
  destruct (receive_loop_registry websocket evs None w) as [Hq Hws].
  assert (Hexit : ∀ e (u : option string) w',
    sse_queues (on_exit e u w') = sse_queues w' ∧
    ∀ id c, websocket_connections (on_exit e u w') !! id = Some c →
            websocket_connections w' !! id = Some c).
  { intros e u w'. split; [apply on_exit_frame|].
    intros id c. unfold on_exit, set_websocket_connections.
    destruct e, (truthy u); world_fields; auto;
      intros [_ H]%lookup_delete_Some; exact H. }
  destruct (receive_loop websocket None evs w) as [u w'|e u w'];
    cbn [world_of] in *;
    (split; [rewrite (proj1 (Hexit _ _ _)); exact Hq
            |intros id c Hc; apply Hws; eapply Hexit; exact Hc]).
Qed.

End Runs.

(** ** Registration and cleanup *)

Section Registry.

Implicit Types (w : world) (websocket : nat) (id : string).

Ltac world_fields :=
  cbn [websocket_connections sse_queues sent queued closed next_queue] in *.

Lemma world_eta w :
  World (websocket_connections w) (sse_queues w) (sent w) (queued w)
        (closed w) (next_queue w) = w.
Proof. now destruct w. Qed.

(** X9: unregistration can be repeated and does not fail on an absent
    slot.  Running the cleanup of a WebSocket session, or the cancellation of
    a stream, a second time changes nothing; and when no slot is stored under
    the identifier the cleanup leaves the whole state as it is. *)
Theorem cleanup_is_idempotent e (user_uuid : option string) id w :
  on_exit e user_uuid (on_exit e user_uuid w) = on_exit e user_uuid w ∧
  sse_cancelled id (sse_cancelled id w) = sse_cancelled id w ∧
  (websocket_connections w !! id = None → on_exit e (Some id) w = w) ∧
  (sse_queues w !! id = None → sse_cancelled id w = w).
Proof.
  unfold on_exit, sse_cancelled, set_websocket_connections, set_sse_queues.
  repeat split.
  - destruct e, (truthy user_uuid); world_fields; try reflexivity;
      now rewrite delete_delete_eq.
  - world_fields. now rewrite delete_delete_eq.
  - intros Hid. destruct e, (truthy (Some id)); try reflexivity;
      rewrite str_Some, (delete_id _ _ Hid); apply world_eta.
  - intros Hid. rewrite (delete_id _ _ Hid). apply world_eta.
Qed.

(** What the ["register"] branch leaves behind, in every case. *)
Lemma on_register_summary websocket (uuid : option string) w :
  user_of (on_register websocket uuid w) = uuid ∧
  sse_queues (world_of (on_register websocket uuid w)) = sse_queues w ∧
  websocket_connections (world_of (on_register websocket uuid w))
  = (if truthy uuid && valid_uuid (str uuid)
     then <[str uuid := websocket]> (websocket_connections w)
     else websocket_connections w) ∧
  ∀ e u w', on_register websocket uuid w = Raise e u w' → e = Exception.
Proof.
  unfold on_register, valid_uuid.
  destruct (truthy uuid); cbn [negb andb]; [destruct (UUID (str uuid))|];
    match goal with
    | |- context [reply ?a ?b ?c ?d] =>
        destruct (reply_registry a b c d) as (-> & -> & ->)
    end; (repeat split; try reflexivity);
    unfold reply; intros e u w'; destruct (send_json _ _ _);
    intros [= <- _ _]; reflexivity.
Qed.

Lemma on_exit_websockets e id w :
  e ≠ CancelledError →
  websocket_connections (on_exit e (Some id) w)
  = if truthy (Some id) then delete id (websocket_connections w)
    else websocket_connections w.
Proof.
  intros He. unfold on_exit, set_websocket_connections. rewrite str_Some.
  destruct e; try contradiction; destruct (truthy (Some id)); reflexivity.
Qed.

(** X10: a session that registers one identifier and then ends by a
    disconnect or a fault gives the dictionaries back as it found them,
    provided no WebSocket was stored under that identifier before; this
    holds whether the identifier was accepted or refused and whether or not
    the session's own connection still accepted the acknowledgment. *)
Theorem register_then_disconnect_restores websocket id e w :
  websocket_connections w !! id = None →
  e ≠ CancelledError →
  websocket_connections (websocket_endpoint websocket [Register (Some id)] e w)
    = websocket_connections w ∧
  sse_queues (websocket_endpoint websocket [Register (Some id)] e w)
    = sse_queues w.
Proof.
  intros Hid He. unfold websocket_endpoint. cbn [receive_loop on_event].
  destruct (on_register_summary websocket (Some id) w) as (Hu & Hq & Hws & Hraise).
  rewrite str_Some in Hws.
  assert (Hdone : ∀ e' w', e' ≠ CancelledError →
    sse_queues w' = sse_queues w →
    websocket_connections w'
    = (if truthy (Some id) && valid_uuid id
       then <[id := websocket]> (websocket_connections w)
       else websocket_connections w) →
    websocket_connections (on_exit e' (Some id) w') = websocket_connections w ∧
    sse_queues (on_exit e' (Some id) w') = sse_queues w).
  { intros e' w' He' Hq' Hws'. split.
    - rewrite on_exit_websockets, Hws' by exact He'.
      destruct (truthy (Some id)); cbn [andb]; [|reflexivity].
      destruct (valid_uuid id).
      + now apply delete_insert_id.
      + now apply delete_id.
    - now rewrite (proj1 (on_exit_frame _ _ _)). }
  destruct (on_register websocket (Some id) w) as [u w'|e' u w'];
    cbn [world_of user_of] in *; subst u.
  - now apply Hdone.
  - apply Hdone; try assumption. rewrite (Hraise e' (Some id) w' eq_refl).
    discriminate.
Qed.

(** X11: what a subscription leaves behind depends on how its stream
    ends.  Provided no queue was stored under the identifier before: when
    [CancelledError] is raised while the generator waits for an item, the
    dictionaries are given back as they were, for accepted and for refused
    identifiers; when the generator is closed while suspended at a [yield],
    or is never iterated, the queue of an accepted identifier stays in the
    dictionary.  The WebSocket dictionary is unchanged in every case. *)
Theorem subscribe_then_cancel_restores id how w :
  sse_queues w !! id = None →
  websocket_connections
    (event_generator_ends how id (snd (sse_endpoint (Some id) w)))
    = websocket_connections w ∧
  (how = CancelledWhileWaiting →
     sse_queues (event_generator_ends how id (snd (sse_endpoint (Some id) w)))
     = sse_queues w) ∧
  (how ≠ CancelledWhileWaiting → id ≠ "" → valid_uuid id = true →
     sse_queues (event_generator_ends how id (snd (sse_endpoint (Some id) w)))
       !! id = Some (next_queue w)).
Proof.
  intros Hid. split; [|split].
  - unfold event_generator_ends, sse_cancelled, set_sse_queues, sse_endpoint.
    destruct how, (negb (truthy (Some id))); try reflexivity;
      rewrite str_Some; destruct (UUID id); reflexivity.
  - intros ->. unfold event_generator_ends, sse_cancelled, set_sse_queues,
      sse_endpoint.
    destruct (negb (truthy (Some id))); [|rewrite str_Some; destruct (UUID id)];
      cbn [snd]; world_fields;
      rewrite ?delete_insert_id by exact Hid;
      rewrite ?(delete_id _ _ Hid); reflexivity.
  - intros Hhow Hne Hv.
    destruct (sse_endpoint_valid id w Hne Hv) as (w' & -> & Hq & _).
    cbn [snd]. destruct how; [contradiction| |];
      cbn [event_generator_ends]; rewrite Hq; apply lookup_insert_eq.
Qed.

End Registry.

(** ** Invariants of the reachable states *)

Section Reachable.

Implicit Types (w : world) (websocket : nat) (id : string).

Ltac world_fields :=
  cbn [websocket_connections sse_queues sent queued closed next_queue] in *.

Lemma on_event_next_queue websocket (user_uuid : option string) ev w :
  next_queue (world_of (on_event websocket user_uuid ev w)) = next_queue w.
Proof.
  unfold on_event, on_register, on_message, reply, ws_deliver,
    send_json_guarded, send_json, put, set_websocket_connections.
  repeat case_match; simplify_eq; reflexivity.
Qed.

Lemma on_message_registry websocket (user_uuid to_uuid body : option string) w :
  websocket_connections (world_of (on_message websocket user_uuid to_uuid body w))
    = websocket_connections w.
Proof.
  unfold on_message, reply, ws_deliver, send_json_guarded, send_json, put.
  repeat case_match; simplify_eq; reflexivity.
Qed.

Lemma send_message_http_next_queue body w :
  next_queue (snd (send_message_http body w)) = next_queue w.
Proof.
  unfold send_message_http, http_deliver, send_json, put.
  repeat case_match; simplify_eq; reflexivity.
Qed.

Lemma keys_valid_delete (m : gmap string nat) id :
  keys_valid m → keys_valid (delete id m).
Proof. intros H k x [_ Hk]%lookup_delete_Some. exact (H k x Hk). Qed.

Lemma keys_valid_insert (m : gmap string nat) id x :
  id ≠ "" → valid_uuid id = true → keys_valid m → keys_valid (<[id := x]> m).
Proof.
  intros Hne Hv H k y. destruct (decide (id = k)) as [<-|Hk].
  - auto.
  - rewrite lookup_insert_ne by exact Hk. apply H.
Qed.

Lemma truthy_str (v : option string) : truthy v = true → str v ≠ "".
Proof.
  destruct v as [s|]; [|discriminate]. cbn.
  destruct (String.eqb_spec s ""); [discriminate|auto].
Qed.

(** Every step keeps the invariant. *)
Lemma step_invariant w w' :
  step w w' → registry_invariant w → registry_invariant w'.
Proof.
  intros Hstep (Hws & Hsse & Hbound & Huniq).
  destruct Hstep as [websocket user_uuid ev w|e user_uuid w|uuid w
                     |user_uuid w|body w|c w].
  - destruct (on_event_registry websocket user_uuid ev w) as [Hq _].
    pose proof (on_event_next_queue websocket user_uuid ev w) as Hn.
    split; [|split; [now rewrite Hq|split; rewrite Hq, ?Hn; assumption]].
    destruct ev as [uuid|to_uuid body|]; cbn [on_event world_of].
    + destruct (on_register_summary websocket uuid w) as (_ & _ & -> & _).
      destruct (truthy uuid) eqn:Ht; [|exact Hws].
      destruct (valid_uuid (str uuid)) eqn:Hv; [|exact Hws].
      apply keys_valid_insert; [now apply truthy_str|exact Hv|exact Hws].
    + now rewrite on_message_registry.
    + exact Hws.
  - destruct (on_exit_frame e user_uuid w) as (Hq & _).
    assert (Hn : next_queue (on_exit e user_uuid w) = next_queue w)
      by (unfold on_exit; repeat case_match; reflexivity).
    split; [|split; [now rewrite Hq|split; rewrite Hq, ?Hn; assumption]].
    unfold on_exit, set_websocket_connections.
    destruct e, (truthy user_uuid); world_fields; try exact Hws;
      now apply keys_valid_delete.
  - unfold sse_endpoint, valid_uuid.
    destruct (truthy uuid) eqn:Ht; cbn [negb snd];
      [|exact (conj Hws (conj Hsse (conj Hbound Huniq)))].
    destruct (UUID (str uuid)) eqn:Hv; cbn [snd];
      [|exact (conj Hws (conj Hsse (conj Hbound Huniq)))].
    unfold registry_invariant, queues_owned. world_fields.
    split; [exact Hws|]. split; [|split].
    + apply keys_valid_insert; [now apply truthy_str| |exact Hsse].
      unfold valid_uuid. now rewrite Hv.
    + intros k q. destruct (decide (str uuid = k)) as [<-|Hk].
      * rewrite lookup_insert_eq. intros [= <-]. lia.
      * rewrite lookup_insert_ne by exact Hk. intros Hq.
        specialize (Hbound k q Hq). lia.
    + intros k1 k2 q.
      destruct (decide (str uuid = k1)) as [<-|Hk1];
        destruct (decide (str uuid = k2)) as [<-|Hk2];
        rewrite ?lookup_insert_eq, ?lookup_insert_ne by assumption.
      * auto.
      * intros [= <-] Hq. specialize (Hbound k2 _ Hq). lia.
      * intros Hq [= <-]. specialize (Hbound k1 _ Hq). lia.
      * apply Huniq.
  - unfold sse_cancelled, set_sse_queues, registry_invariant, queues_owned.
    world_fields. split; [exact Hws|].
    split; [now apply keys_valid_delete|]. split.
    + intros k q [_ Hq]%lookup_delete_Some. exact (Hbound k q Hq).
    + intros k1 k2 q [_ H1]%lookup_delete_Some [_ H2]%lookup_delete_Some.
      exact (Huniq k1 k2 q H1 H2).
  - destruct (send_message_http_cases body w)
      as [(_ & _ & _ & ->)|(_ & data & _ & _ & Hw)];
      [exact (conj Hws (conj Hsse (conj Hbound Huniq)))|].
    pose proof (send_message_http_next_queue body w) as Hn.
    rewrite Hw in *.
    destruct (http_deliver_registry (str (req_from_uuid data)) (recipient body)
                (str (req_text data)) w) as [Hr Hq].
    split; [now rewrite Hr|]. split; [now rewrite Hq|].
    split; rewrite Hq, ?Hn; assumption.
  - exact (conj Hws (conj Hsse (conj Hbound Huniq))).
Qed.

Lemma reachable_invariant w : reachable w → registry_invariant w.
Proof.
  unfold reachable. revert w. apply rtc_ind_r.
  - assert (He : keys_valid ∅)
      by (intros id x Hx; rewrite lookup_empty in Hx; discriminate Hx).
    split; [exact He|]. split; [exact He|].
    split; cbn; intros *; rewrite lookup_empty; intros Hx; discriminate Hx.
  - intros w1 w2 _ Hs IH. exact (step_invariant _ _ Hs IH).
Qed.

(** X12: in every state the server can reach, every key of either
    dictionary is a non-empty text that passed [uuid.UUID]: no handler ever
    stores a connection or a queue under a refused identifier. *)
Theorem registry_keys_are_valid w :
  reachable w →
  keys_valid (websocket_connections w) ∧ keys_valid (sse_queues w).
Proof.
  intros H. destruct (reachable_invariant w H) as (Hws & Hsse & _). auto.
Qed.


(** X14: the ["message"] branch does not validate the recipient, but in
    every reachable state this cannot lead to a delivery: a message sent by a
    registered session to a text that [uuid.UUID] refuses writes nothing
    anywhere and is answered with the error "Peer ... is not online". *)
Theorem malformed_recipient_reaches_nobody w websocket from to_uuid txt :
  reachable w →
  from ≠ "" → to_uuid ≠ "" → txt ≠ "" →
  valid_uuid to_uuid = false →
  on_message websocket (Some from) (Some to_uuid) (Some txt) w
  = reply websocket (Error (not_online to_uuid)) (Some from) w.
Proof.
  intros H Hf Ht Hx Hv.
  destruct (reachable_invariant w H) as (Hws & Hsse & _).
  assert (Hnows : websocket_connections w !! to_uuid = None).
  { destruct (websocket_connections w !! to_uuid) as [c|] eqn:E; [|reflexivity].
    destruct (Hws _ _ E) as [_ Hv']. congruence. }
  assert (Hnoq : sse_queues w !! to_uuid = None).
  { destruct (sse_queues w !! to_uuid) as [q|] eqn:E; [|reflexivity].
    destruct (Hsse _ _ E) as [_ Hv']. congruence. }
  rewrite on_message_replies by assumption.
  unfold has_websocket, has_queue. rewrite Hnows, Hnoq. cbn [orb].
  rewrite deliveries_write_alike, http_deliver_cases. cbn zeta.
  now rewrite Hnows, Hnoq.
Qed.

End Reachable.

(** ** A registered sender and a push subscriber *)

Section EndToEnd.

Implicit Types (w : world) (c : nat).

Lemma ws_deliver_closed from to_uuid txt w :
  closed (fst (ws_deliver from to_uuid txt w)) = closed w.
Proof.
  unfold ws_deliver, send_json_guarded, send_json, put.
  repeat case_match; simplify_eq; reflexivity.
Qed.

Lemma sse_endpoint_closed (uuid : option string) w :
  closed (snd (sse_endpoint uuid w)) = closed w.
Proof. unfold sse_endpoint. repeat case_match; reflexivity. Qed.

Lemma event_generator_snoc user_uuid got m :
  event_generator user_uuid (got ++ [m])
  = event_generator user_uuid got ++ [message_event m].
Proof. unfold event_generator. now rewrite map_app. Qed.

(** X15: the path from a WebSocket sender to a push subscriber.  [A]
    registers on a connected WebSocket, [B] subscribes to the event stream,
    and [A] sends a non-empty text to [B]: the subscription gets a new queue,
    the last frame on [A]'s WebSocket is [message_sent] for [B], the last
    item of [B]'s queue is the message from [A] with that text, and the
    stream of [B] ends with the event that carries it. *)
Theorem websocket_to_push_delivery A B txt c w :
  A ≠ "" → valid_uuid A = true → B ≠ "" → valid_uuid B = true → txt ≠ "" →
  c ∉ closed w →
  let registered := on_register c (Some A) w in
  let subscribed := sse_endpoint (Some B) (world_of registered) in
  let answered :=
    on_event c (user_of registered) (Send (Some B) (Some txt)) (snd subscribed) in
  fst subscribed = SseStream B (next_queue w) ∧
  user_of answered = Some A ∧
  last (frames_on c (world_of answered)) = Some (MessageSent B) ∧
  last (items_on (next_queue w) (world_of answered)) = Some (Message A txt) ∧
  last (event_generator B (items_on (next_queue w) (world_of answered)))
  = Some (message_event (Message A txt)).
Proof.
  intros HA HvA HB HvB Htxt Hopen. cbn zeta.
  pose proof (on_event_next_queue c None (Register (Some A)) w) as Hn1.
  cbn [on_event] in Hn1.
  destruct (on_register_valid c A w HA HvA Hopen) as (w1 & E1 & Hws1 & Hq1 & Hc1).
  rewrite E1 in *. cbn [world_of user_of] in *.
  pose proof (sse_endpoint_closed (Some B) w1) as Hc2.
  destruct (sse_endpoint_valid B w1 HB HvB) as (w2 & E2 & Hq2 & Hws2 & Hn2).
  rewrite E2 in *. cbn [fst snd] in *. rewrite Hn1 in *.
  split; [reflexivity|].
  cbn [on_event]. rewrite on_message_replies by assumption.
  assert (HqB : sse_queues w2 !! B = Some (next_queue w))
    by (rewrite Hq2; apply lookup_insert_eq).
  unfold has_queue. rewrite HqB, orb_true_r.
  set (w3 := fst (ws_deliver A B txt w2)).
  assert (Hitems : items_on (next_queue w) w3
                   = items_on (next_queue w) w2 ++ [Message A txt]).
  { unfold w3. rewrite deliveries_write_alike, http_deliver_cases. cbn zeta.
    rewrite HqB, items_on_put, decide_True by reflexivity.
    destruct (websocket_connections w2 !! B);
      now rewrite ?items_on_send_json_guarded. }
  destruct (reply_cases c (MessageSent B) (Some A) w3)
    as [(Hc & _)|(_ & w4 & -> & _ & _ & Hi & _ & _ & Hown & _)].
  { unfold w3 in Hc. rewrite ws_deliver_closed, Hc2, Hc1 in Hc. contradiction. }
  cbn [user_of world_of]. split; [reflexivity|].
  split; [rewrite Hown; apply last_snoc|].
  assert (Hitems4 : items_on (next_queue w) w4
                    = items_on (next_queue w) w2 ++ [Message A txt]).
  { unfold items_on at 1. rewrite Hi. exact Hitems. }
  rewrite Hitems4. split; [apply last_snoc|].
  rewrite event_generator_snoc. apply last_snoc.
Qed.

End EndToEnd.

(** ** The event stream *)

Section EventStream.

Import PyJson.

Lemma append_assoc' a b c : (a +:+ b) +:+ c = a +:+ (b +:+ c).
Proof.
  induction a as [|x a IH]; [reflexivity|]. rewrite !append_cons. now rewrite IH.
Qed.

Lemma append_inv_head p a b : p +:+ a = p +:+ b → a = b.
Proof.
  induction p as [|x p IH]; [auto|]. rewrite !append_cons.
  intros [= H]. auto.
Qed.








Lemma read_escape_char c tail :
  read_string (escape_char c +:+ tail) = push c (read_string tail).
Proof. destruct c as [[] [] [] [] [] [] [] []]; reflexivity. Qed.

(** Reading back an escaped string up to its closing quote gives the
    string and the rest. *)
Lemma read_escape s rest :
  read_string (escape s +:+ String quote rest) = Some (s, rest).
Proof.
  induction s as [|c s IH]; [reflexivity|].
  cbn [escape]. rewrite append_assoc', read_escape_char, IH. reflexivity.
Qed.

Lemma escape_then_quote_inj s1 r1 s2 r2 :
  escape s1 +:+ String quote r1 = escape s2 +:+ String quote r2 →
  s1 = s2 ∧ r1 = r2.
Proof.
  intros H. apply (f_equal read_string) in H.
  rewrite !read_escape in H. now inversion H.
Qed.

(** The text of a message event: fixed parts around the escaped sender and
    the escaped text. *)
Lemma message_event_shape m :
  message_event m
  = event_head
    +:+ (escape (from_uuid m)
         +:+ String quote
               (event_middle
                +:+ (escape (text m) +:+ String quote event_tail))).
Proof.
  unfold message_event, sse_data, dumps, members, member, literal,
    event_head, event_middle, event_tail.
  cbn [fst snd].
  repeat rewrite ?append_cons, ?append_assoc'.
  reflexivity.
Qed.

(** The event that forwards a message determines the message. *)
Lemma message_event_injective m1 m2 :
  message_event m1 = message_event m2 → m1 = m2.
Proof.
  rewrite !message_event_shape. intros H.
  apply append_inv_head in H.
  apply escape_then_quote_inj in H as [Hf H].
  apply append_inv_head in H.
  apply escape_then_quote_inj in H as [Ht _].
  destruct m1, m2. cbn in *. congruence.
Qed.

(** X17: two items that differ in the sender or in the text are never
    written as the same event, so no text can pass for another sender or
    another text. *)
Theorem different_messages_different_events m1 m2 :
  m1 ≠ m2 → message_event m1 ≠ message_event m2.
Proof. intros Hne H. apply Hne. now apply message_event_injective. Qed.

End EventStream.

(** ** More on the identifier check *)

Section ValidatorValues.

Import PyStr PyInt.

Lemma remove_go_length old s : ∀ skip,
  (String.length (remove_go old skip s) ≤ String.length s)%nat.
Proof.
  induction s as [|c s IH]; intros skip; [reflexivity|].
  cbn [remove_go String.length]. destruct skip as [|k].
  - destruct (startswith old (String c s)).
    + specialize (IH (Nat.pred (String.length old))). lia.
    + cbn [String.length]. specialize (IH 0). lia.
  - specialize (IH k). lia.
Qed.

Lemma lstrip_length chars s :
  (String.length (lstrip chars s) ≤ String.length s)%nat.
Proof.
  induction s as [|c s IH]; [reflexivity|]. cbn [lstrip].
  destruct (mem c chars); cbn [String.length]; lia.
Qed.

Lemma rstrip_length chars s :
  (String.length (rstrip chars s) ≤ String.length s)%nat.
Proof.
  induction s as [|c s IH]; [reflexivity|]. cbn [rstrip].
  destruct (rstrip chars s) as [|x r]; [destruct (mem c chars)|];
    cbn [String.length] in *; lia.
Qed.

Lemma undecorated_length s :
  (String.length (undecorated s) ≤ String.length s)%nat.
Proof.
  unfold undecorated, strip, remove.
  pose proof (remove_go_length "-" (rstrip "{}" (lstrip "{}"
                (remove_go "uuid:" 0 (remove_go "urn:" 0 s)))) 0).
  pose proof (rstrip_length "{}" (lstrip "{}"
                (remove_go "uuid:" 0 (remove_go "urn:" 0 s)))).
  pose proof (lstrip_length "{}" (remove_go "uuid:" 0 (remove_go "urn:" 0 s))).
  pose proof (remove_go_length "uuid:" (remove_go "urn:" 0 s) 0).
  pose proof (remove_go_length "urn:" s 0).
  lia.
Qed.

(** X18: a text of fewer than 32 characters is never accepted as an
    identifier, whatever it contains; the empty text in particular. *)
Theorem short_text_is_refused s :
  (String.length s < 32)%nat → valid_uuid s = false.
Proof.
  intros Hlen. unfold valid_uuid, UUID.
  pose proof (undecorated_length s) as Hle.
  destruct (Nat.eqb_spec (String.length (undecorated s)) 32) as [E|_];
    [lia|reflexivity].
Qed.

(** The digit loop computes the number the digits write. *)
Lemma digits_hex_number s : ∀ b acc,
  hex_only s = true → s ≠ EmptyString ∨ b = false →
  digits s b acc = Some (hex_number acc s, EmptyString).
Proof.
  induction s as [|c s IH]; intros b acc Hs Hb.
  - destruct Hb as [Hb| ->]; [congruence|reflexivity].
  - cbn in Hs. apply andb_prop in Hs as [Hc Hs].
    destruct (is_hex_cases c Hc) as (_ & _ & _ & _ & _ & Hu & _).
    cbn [digits hex_number]. unfold underscore. rewrite Hu.
    unfold is_hex in Hc. destruct (hex_value c) as [d|]; [|discriminate].
    cbn [default]. apply IH; auto.
Qed.

Lemma hex_number_bound s :
  hex_only s = true →
  (0 ≤ hex_number 0 s < 16 ^ Z.of_nat (String.length s))%Z.
Proof.
  intros Hs.
  destruct (digits_hex_only s false 0%Z Hs (or_intror eq_refl)) as (v & Hv & Hr).
  rewrite (digits_hex_number s false 0%Z Hs (or_intror eq_refl)) in Hv.
  inversion Hv; subst v. lia.
Qed.

(** [int(s, 16)] of a non-empty run of hexadecimal digits is the number
    they write. *)
Lemma int16_hex_number s :
  hex_only s = true → s ≠ EmptyString → int16 s = Some (hex_number 0 s).
Proof.
  intros Hs Hne.
  pose proof (digits_hex_number s false 0%Z Hs (or_introl Hne)) as Hv.
  destruct s as [|c s]; [congruence|].
  pose proof Hs as Hs'. cbn in Hs'. apply andb_prop in Hs' as [Hc Hs'].
  destruct (is_hex_cases c Hc) as (_ & _ & _ & Hm & Hp & Hu & _ & _ & Hsp).
  unfold int16. cbn [skip_spaces]. rewrite Hsp.
  assert (take_sign (String c s) = (1%Z, String c s)) as ->.
  { unfold take_sign.
    destruct (Ascii.eqb_spec c "+"%char) as [E|]; [discriminate Hp|].
    destruct (Ascii.eqb_spec c "-"%char) as [E|]; [discriminate Hm|].
    destruct c as [[] [] [] [] [] [] [] []]; try reflexivity; congruence. }
  assert (take_prefix (String c s) = String c s) as ->.
  { unfold take_prefix. destruct s as [|x r].
    - destruct c as [[] [] [] [] [] [] [] []]; reflexivity.
    - cbn in Hs'. apply andb_prop in Hs' as [Hx _].
      destruct (is_hex_cases x Hx) as (_ & _ & _ & _ & _ & _ & -> & -> & _).
      destruct c as [[] [] [] [] [] [] [] []]; reflexivity. }
  rewrite Hv. cbn [String.eqb skip_spaces].
  replace (1 * hex_number 0 (String c s))%Z with (hex_number 0 (String c s))
    by lia.
  destruct (Ascii.eqb_spec c "_"%char) as [E|Hn]; [discriminate Hu|].
  destruct c as [[] [] [] [] [] [] [] []]; try reflexivity; congruence.
Qed.

(** The value of whatever reduces to 32 hexadecimal digits. *)
Lemma UUID_of_undecorated x h :
  undecorated x = h → hex_only h = true → String.length h = 32 →
  UUID x = Some (hex_number 0 h).
Proof.
  intros Hx Hh Hl. unfold UUID. rewrite Hx, Hl. cbn [Nat.eqb].
  rewrite (int16_hex_number h Hh) by (intros ->; discriminate Hl).
  pose proof (hex_number_bound h Hh) as Hb. rewrite Hl in Hb.
  change (16 ^ Z.of_nat 32)%Z with (2 ^ 128)%Z in Hb.
  destruct (Z.leb_spec 0 (hex_number 0 h)); [|lia].
  destruct (Z.ltb_spec (hex_number 0 h) (2 ^ 128)); [reflexivity|lia].
Qed.

(** The four spellings of a canonical identifier reduce to its digits. *)
Lemma canonical_spellings_undecorated s :
  canonical s = true →
  hex_only (remove "-" s) = true ∧
  String.length (remove "-" s) = 32 ∧
  undecorated s = remove "-" s ∧
  undecorated (remove "-" s) = remove "-" s ∧
  undecorated ("{" +:+ s +:+ "}") = remove "-" s ∧
  undecorated ("urn:uuid:" +:+ s) = remove "-" s.
Proof.
  intros Hs.
  destruct (canonical_split s Hs)
    as (a & b & c & d & e & -> & Hl & Ha & Hb & Hc & Hd & He & Hne).
  set (s := a +:+ String "-"%char (b +:+ String "-"%char
              (c +:+ String "-"%char (d +:+ String "-"%char e)))).
  assert (Hrm : remove "-" s = a +:+ b +:+ c +:+ d +:+ e)
    by (apply remove_hyphen_canonical; assumption).
  assert (Hhh : hex_or_hyphen s = true)
    by (apply hex_or_hyphen_canonical; assumption).
  assert (Hh : hex_only (remove "-" s) = true).
  { rewrite Hrm, !hex_only_app, Ha, Hb, Hc, Hd, He. reflexivity. }
  assert (Hu : mem "u"%char s = false)
    by (apply hex_or_hyphen_no_char; [reflexivity|reflexivity|exact Hhh]).
  split; [exact Hh|]. split; [now rewrite Hrm|].
  split; [now apply undecorated_plain|]. split; [|split].
  - rewrite undecorated_plain by (apply hex_only_hex_or_hyphen; exact Hh).
    apply remove_absent, hex_only_no_char; [reflexivity|exact Hh].
  - unfold undecorated.
    assert (Hb' : mem "u"%char ("{" +:+ s +:+ "}") = false)
      by (rewrite !mem_app, Hu; reflexivity).
    rewrite (remove_absent "u"%char "rn:" _ Hb').
    rewrite (remove_absent "u"%char "uid:" _ Hb').
    f_equal. unfold strip.
    assert (lstrip "{}" ("{" +:+ s +:+ "}") = s +:+ "}") as ->.
    { change ("{" +:+ s +:+ "}") with (String "{"%char (s +:+ "}")).
      cbn [lstrip mem]. cbn [Ascii.eqb Bool.eqb].
      unfold s. destruct a as [|x a]; [congruence|].
      rewrite !append_cons. apply lstrip_absent.
      cbn in Ha. apply andb_prop in Ha as [Hx _].
      destruct (is_hex_cases x Hx) as (_ & H1 & H2 & _).
      cbn [mem]. now rewrite H1, H2. }
    rewrite rstrip_app by reflexivity.
    apply rstrip_absent. intros x Hx. cbn [mem] in Hx.
    apply hex_or_hyphen_no_char; [| |exact Hhh];
      destruct (Ascii.eqb_spec x "{"%char) as [E|_];
      [rewrite E; reflexivity| |rewrite E; reflexivity|];
      (destruct (Ascii.eqb_spec x "}"%char) as [E|_];
       [rewrite E; reflexivity|discriminate Hx]).
  - unfold undecorated.
    assert (remove "urn:" ("urn:uuid:" +:+ s) = "uuid:" +:+ remove "urn:" s)
      as -> by reflexivity.
    rewrite (remove_absent "u"%char "rn:" s Hu).
    assert (remove "uuid:" ("uuid:" +:+ s) = remove "uuid:" s)
      as -> by reflexivity.
    rewrite (remove_absent "u"%char "uid:" s Hu).
    rewrite <- (undecorated_plain s Hhh). unfold undecorated.
    rewrite (remove_absent "u"%char "rn:" s Hu).
    rewrite (remove_absent "u"%char "uid:" s Hu). reflexivity.
Qed.

(** X19: the value [uuid.UUID] gives to a canonical identifier is the
    number its 32 hexadecimal digits write, most significant digit first, and
    the unhyphenated, the brace-enclosed and the [urn:uuid:]-prefixed
    spellings of the identifier have the same value. *)
Theorem spellings_denote_one_number s :
  canonical s = true →
  UUID s = Some (hex_number 0 (remove "-" s)) ∧
  UUID (remove "-" s) = UUID s ∧
  UUID ("{" +:+ s +:+ "}") = UUID s ∧
  UUID ("urn:uuid:" +:+ s) = UUID s.
Proof.
  intros Hs.
  destruct (canonical_spellings_undecorated s Hs)
    as (Hh & Hl & H1 & H2 & H3 & H4).
  rewrite (UUID_of_undecorated _ _ H1 Hh Hl), (UUID_of_undecorated _ _ H2 Hh Hl),
    (UUID_of_undecorated _ _ H3 Hh Hl), (UUID_of_undecorated _ _ H4 Hh Hl).
  repeat split.
Qed.

End ValidatorValues.

(** ** What the identifier check refuses *)

Section ValidatorRejects.

Import PyStr PyInt.

(** [int(_, 16)] reads nothing but its own characters. *)
Lemma skip_spaces_readable s : readable (skip_spaces s) = true → readable s = true.
Proof.
  induction s as [|c s IH]; [auto|]. cbn [skip_spaces].
  destruct (isspace c) eqn:E; [|auto].
  intros H. cbn [readable]. rewrite (IH H), andb_true_r.
  unfold sign_or_int_char, int_char. rewrite E. now rewrite orb_true_r.
Qed.

Lemma spaces_readable s : skip_spaces s = EmptyString → readable s = true.
Proof.
  intros H. apply skip_spaces_readable. now rewrite H.
Qed.

Lemma take_sign_cases s :
  snd (take_sign s) = s ∨
  ∃ c, s = String c (snd (take_sign s)) ∧ sign_or_int_char c = true.
Proof.
  destruct s as [|c r]; [left; reflexivity|].
  destruct c as [[] [] [] [] [] [] [] []];
    first [left; reflexivity | right; eexists; split; reflexivity].
Qed.

Lemma take_prefix_readable s : readable (take_prefix s) = true → readable s = true.
Proof.
  destruct s as [|c r]; [auto|].
  destruct r as [|x r].
  - destruct c as [[] [] [] [] [] [] [] []]; auto.
  - unfold take_prefix.
    destruct (Ascii.eqb_spec c "0"%char) as [->|Hc].
    + destruct (Ascii.eqb x "x"%char || Ascii.eqb x "X"%char) eqn:Ex; [|auto].
      assert (Hx : sign_or_int_char x = true).
      { apply orb_prop in Ex as [E|E]; apply Ascii.eqb_eq in E; subst x;
          reflexivity. }
      intros H. cbn [readable]. rewrite Hx. cbn [andb].
      change (sign_or_int_char "0") with true. cbn [andb].
      destruct r as [|u r]; [reflexivity|].
      destruct (Ascii.eqb_spec u "_"%char) as [->|Hu].
      * cbn [readable]. now rewrite H.
      * destruct u as [[] [] [] [] [] [] [] []]; try exact H; congruence.
    + destruct c as [[] [] [] [] [] [] [] []]; auto; congruence.
Qed.

Lemma digits_readable s : ∀ b acc v rest,
  digits s b acc = Some (v, rest) → readable rest = true → readable s = true.
Proof.
  induction s as [|c s IH]; intros b acc v rest; cbn [digits].
  - destruct b; [discriminate|]. intros [= <- <-]. auto.
  - destruct (Ascii.eqb_spec c underscore) as [->|Hc].
    + destruct b; [discriminate|]. intros H Hr.
      cbn [readable]. now rewrite (IH _ _ _ _ H Hr).
    + destruct (hex_value c) as [d|] eqn:Hd.
      * intros H Hr. cbn [readable]. rewrite (IH _ _ _ _ H Hr), andb_true_r.
        unfold sign_or_int_char, int_char, is_hex. now rewrite Hd.
      * destruct b; [discriminate|]. intros [= <- <-]. auto.
Qed.

Lemma int16_readable t n : int16 t = Some n → readable t = true.
Proof.
  unfold int16. intros H. apply skip_spaces_readable.
  pose proof (take_sign_cases (skip_spaces t)) as Hs.
  destruct (take_sign (skip_spaces t)) as [sg s1]. cbn [snd] in Hs.
  assert (Hgoal : readable s1 = true).
  { apply take_prefix_readable.
    destruct (take_prefix s1) as [|c s2] eqn:E2.
    - reflexivity.
    - rewrite <- E2 in *.
      assert (Hd : ∃ v rest, digits (take_prefix s1) false 0 = Some (v, rest)
                             ∧ skip_spaces rest = EmptyString).
      { rewrite E2 in H |- *.
        destruct (digits (String c s2) false 0) as [[v rest]|];
          [|destruct c as [[] [] [] [] [] [] [] []]; discriminate H].
        exists v, rest. split; [reflexivity|].
        destruct (String.eqb rest (String c s2));
          [destruct c as [[] [] [] [] [] [] [] []]; discriminate H|].
        destruct (skip_spaces rest); [reflexivity|].
        destruct c as [[] [] [] [] [] [] [] []]; discriminate H. }
      destruct Hd as (v & rest & Hd & Hsp).
      exact (digits_readable _ _ _ _ _ Hd (spaces_readable _ Hsp)). }
  destruct Hs as [->|(c & -> & Hc)]; [exact Hgoal|].
  cbn [readable]. now rewrite Hc, Hgoal.
Qed.

Lemma remove_hyphen_none s : mem "-"%char (remove "-" s) = false.
Proof.
  unfold remove. induction s as [|c s IH]; [reflexivity|].
  cbn [remove_go startswith String.length Nat.pred].
  destruct (Ascii.eqb "-" c) eqn:E; [exact IH|].
  cbn [mem]. now rewrite E.
Qed.

Lemma readable_no_hyphen s :
  readable s = true → mem "-"%char s = false → int_chars s = true.
Proof.
  induction s as [|c s IH]; [auto|]. cbn [readable mem int_chars].
  intros [Hc Hs]%andb_prop.
  destruct (Ascii.eqb "-" c) eqn:E; [discriminate|]. intros Hm.
  rewrite (IH Hs Hm), andb_true_r.
  unfold sign_or_int_char in Hc. rewrite Ascii.eqb_sym, E, orb_false_r in Hc.
  exact Hc.
Qed.

(** An accepted text, once undecorated, consists of the characters
    [int(_, 16)] reads. *)
Lemma valid_uuid_int_chars s :
  valid_uuid s = true → int_chars (undecorated s) = true.
Proof.
  unfold valid_uuid, UUID. intros H.
  destruct (Nat.eqb (String.length (undecorated s)) 32); [|discriminate H].
  destruct (int16 (undecorated s)) as [n|] eqn:E; [|discriminate H].
  apply readable_no_hyphen; [exact (int16_readable _ _ E)|].
  unfold undecorated. apply remove_hyphen_none.
Qed.

(** C6, as amended: the validator accepts every identifier in the canonical
    hyphenated layout together with its unhyphenated, its brace-enclosed and
    its [urn:uuid:]-prefixed spellings, and more generally every text that
    is 32 hexadecimal digits once prefixes, braces and hyphens are taken
    away.  It refuses every text that is not 32 characters long once these
    are taken away, every text of fewer than 32 characters in particular,
    and every ASCII text in which a character remains that is not a
    hexadecimal digit, a blank, [+], [x], [X] or [_]. *)
Theorem validator_accepts_and_rejects s :
  (canonical s = true →
     valid_uuid s = true ∧
     valid_uuid (remove "-" s) = true ∧
     valid_uuid ("{" +:+ s +:+ "}") = true ∧
     valid_uuid ("urn:uuid:" +:+ s) = true) ∧
  (hex_only (undecorated s) = true → String.length (undecorated s) = 32 →
     valid_uuid s = true) ∧
  (String.length (undecorated s) ≠ 32 → valid_uuid s = false) ∧
  ((String.length s < 32)%nat → valid_uuid s = false) ∧
  (ascii_only s = true → int_chars (undecorated s) = false →
     valid_uuid s = false).
Proof.
  split; [exact (validator_accepts_canonical_and_variants s)|].
  split; [exact (valid_of_undecorated s (undecorated s) eq_refl)|].
  assert (Hlen : String.length (undecorated s) ≠ 32 → valid_uuid s = false).
  { intros Hne. destruct (valid_uuid s) eqn:E; [|reflexivity].
    destruct (Hne (valid_uuid_length s E)). }
  split; [exact Hlen|]. split.
  - intros Hlt. apply Hlen. pose proof (undecorated_length s). lia.
  - intros _ Hc. destruct (valid_uuid s) eqn:E; [|reflexivity].
    rewrite (valid_uuid_int_chars s E) in Hc. discriminate Hc.
Qed.

End ValidatorRejects.

(** ** Delivery to an identifier with both slots *)

Section BothSlots.

Implicit Types (w : world) (websocket c q : nat).

Ltac world_fields :=
  cbn [websocket_connections sse_queues sent queued closed next_queue] in *.

(** The delivery code of both handlers when the recipient has both slots. *)
Lemma deliver_both_present from to_uuid body c q w :
  websocket_connections w !! to_uuid = Some c →
  sse_queues w !! to_uuid = Some q →
  ws_deliver from to_uuid body w
  = (put q (Message from body)
       (send_json_guarded c (Incoming (Message from body)) w), Delivered) ∧
  http_deliver from to_uuid body w
  = (put q (Message from body)
       (send_json_guarded c (Incoming (Message from body)) w), Delivered).
Proof.
  intros Hc Hq.
  unfold ws_deliver, http_deliver, send_json_guarded, send_json. rewrite Hc.
  destruct (decide (c ∈ closed w)); world_fields; rewrite Hq; split; reflexivity.
Qed.

Lemma frames_on_guarded_accepted c f c' w :
  frames_on c' (send_json_guarded c f w)
  = frames_on c' w ++ (if decide (c' = c) then accepted c f w else []).
Proof.
  rewrite frames_on_send_json_guarded. unfold accepted.
  destruct (decide (c' = c)) as [->|]; [|now rewrite app_nil_r].
  destruct (decide (c ∈ closed w)); [now rewrite app_nil_r|reflexivity].
Qed.

Lemma closed_guarded c f w : closed (send_json_guarded c f w) = closed w.
Proof.
  unfold send_json_guarded, send_json.
  destruct (decide (c ∈ closed w)); reflexivity.
Qed.

(** The reply on the session's own WebSocket, as frames. *)
Lemma reply_frames websocket f (user_uuid : option string) w c' :
  reply websocket f user_uuid w
  = (if decide (websocket ∈ closed w) then Raise Exception user_uuid
     else Next user_uuid) (world_of (reply websocket f user_uuid w)) ∧
  frames_on c' (world_of (reply websocket f user_uuid w))
  = frames_on c' w ++ (if decide (c' = websocket) then accepted websocket f w
                       else []) ∧
  queued (world_of (reply websocket f user_uuid w)) = queued w.
Proof.
  unfold reply, send_json, accepted.
  destruct (decide (websocket ∈ closed w)); cbn [world_of].
  - split; [reflexivity|]. split; [|reflexivity].
    destruct (decide (c' = websocket)); now rewrite app_nil_r.
  - split; [reflexivity|]. split; [|reflexivity].
    unfold frames_on at 1. world_fields.
    destruct (decide (c' = websocket)) as [->|Hne].
    + now rewrite lookup_insert_eq.
    + rewrite lookup_insert_ne by congruence. now rewrite app_nil_r.
Qed.

(** C7, as amended: when an identifier has both a WebSocket slot and a
    queue slot, a delivery from either handler puts the message on the
    queue, and writes it on the WebSocket when that connection accepts the
    write; when [send_json] raises there, the failure is swallowed and the
    WebSocket receives nothing.  In both cases the sender is told that the
    message was delivered: the HTTP handler answers 200, and the WebSocket
    handler writes [message_sent] as the next frame on the sender's own
    connection, when that connection accepts the write, and otherwise leaves
    the loop with the exception. *)
Theorem delivery_to_both_slots websocket from to_uuid body c q w :
  from ≠ "" → to_uuid ≠ "" → body ≠ "" →
  valid_uuid from = true → valid_uuid to_uuid = true →
  websocket_connections w !! to_uuid = Some c →
  sse_queues w !! to_uuid = Some q →
  (fst (send_message_http
          (Some (SendRequest (Some from) (Some to_uuid) (Some body))) w)
     = Response 200 true "Message sent successfully" ∧
   items_on q (snd (send_message_http
          (Some (SendRequest (Some from) (Some to_uuid) (Some body))) w))
     = items_on q w ++ [Message from body] ∧
   frames_on c (snd (send_message_http
          (Some (SendRequest (Some from) (Some to_uuid) (Some body))) w))
     = frames_on c w ++ accepted c (Incoming (Message from body)) w) ∧
  (items_on q (world_of
       (on_message websocket (Some from) (Some to_uuid) (Some body) w))
     = items_on q w ++ [Message from body] ∧
   frames_on c (world_of
       (on_message websocket (Some from) (Some to_uuid) (Some body) w))
     = frames_on c w ++ accepted c (Incoming (Message from body)) w
         ++ (if decide (c = websocket)
             then accepted websocket (MessageSent to_uuid) w else []) ∧
   frames_on websocket (world_of
       (on_message websocket (Some from) (Some to_uuid) (Some body) w))
     = frames_on websocket w
         ++ (if decide (websocket = c)
             then accepted c (Incoming (Message from body)) w else [])
         ++ accepted websocket (MessageSent to_uuid) w ∧
   on_message websocket (Some from) (Some to_uuid) (Some body) w
     = (if decide (websocket ∈ closed w) then Raise Exception (Some from)
        else Next (Some from))
         (world_of
            (on_message websocket (Some from) (Some to_uuid) (Some body) w))).
Proof.
  intros Hf Ht Hb Hvf Hvt Hc Hq.
  destruct (deliver_both_present from to_uuid body c q w Hc Hq) as [Hw Hh].
  set (m := Message from body) in *.
  set (w1 := put q m (send_json_guarded c (Incoming m) w)) in *.
  assert (Hitems : items_on q w1 = items_on q w ++ [m]).
  { unfold w1. rewrite items_on_put, decide_True by reflexivity.
    now rewrite items_on_send_json_guarded. }
  assert (Hframes : ∀ c', frames_on c' w1
            = frames_on c' w ++ (if decide (c' = c)
                                 then accepted c (Incoming m) w else [])).
  { intros c'. unfold w1. rewrite frames_on_put.
    apply frames_on_guarded_accepted. }
  assert (Hclosed : closed w1 = closed w).
  { unfold w1. unfold put. world_fields. apply closed_guarded. }
  split.
  - unfold send_message_http. cbn [req_from_uuid req_to_uuid req_text].
    rewrite !truthy_Some by assumption. cbn [negb orb]. rewrite !str_Some.
    destruct (valid_uuid_Some _ Hvf) as (? & ->).
    destruct (valid_uuid_Some _ Hvt) as (? & ->).
    rewrite Hh. cbn [fst snd]. split; [reflexivity|]. split; [exact Hitems|].
    rewrite Hframes, decide_True by reflexivity. reflexivity.
  - assert (Hm : on_message websocket (Some from) (Some to_uuid) (Some body) w
                 = reply websocket (MessageSent to_uuid) (Some from) w1).
    { unfold on_message. rewrite !truthy_Some by assumption.
      cbn [negb orb]. rewrite !str_Some. now rewrite Hw. }
    rewrite Hm.
    assert (Hacc : accepted websocket (MessageSent to_uuid) w1
                   = accepted websocket (MessageSent to_uuid) w).
    { unfold accepted. now rewrite Hclosed. }
    split; [|split; [|split]].
    + unfold items_on.
      rewrite (proj2 (proj2 (reply_frames websocket (MessageSent to_uuid)
                               (Some from) w1 c))).
      exact Hitems.
    + rewrite (proj1 (proj2 (reply_frames websocket (MessageSent to_uuid)
                               (Some from) w1 c))).
      rewrite Hframes, decide_True by reflexivity. rewrite Hacc.
      now rewrite <- app_assoc.
    + rewrite (proj1 (proj2 (reply_frames websocket (MessageSent to_uuid)
                               (Some from) w1 websocket))).
      rewrite Hframes, (decide_True (P := websocket = websocket)) by reflexivity.
      rewrite Hacc. now rewrite <- app_assoc.
    + rewrite <- Hclosed.
      exact (proj1 (reply_frames websocket (MessageSent to_uuid)
                      (Some from) w1 c)).
Qed.

End BothSlots.

(** ** Messages of a WebSocket session *)

Section SessionMessages.

Implicit Types (w : world) (websocket : nat).

Lemma on_event_open websocket (user_uuid : option string) ev w :
  websocket ∉ closed w →
  ∃ u' w', on_event websocket user_uuid ev w = Next u' w' ∧ closed w' = closed w.
Proof.
  intros Hopen. destruct ev as [uuid|to_uuid body|]; cbn [on_event].
  - unfold on_register.
    destruct (negb (truthy uuid)); [|destruct (UUID (str uuid))];
      match goal with
      | |- context [reply ?a ?b ?c ?d] =>
          destruct (reply_cases a b c d)
            as [(Hc & _)|(_ & w' & -> & _ & _ & _ & Hcl & _)]
      end; try contradiction; eauto.
  - unfold on_message.
    destruct (negb (truthy user_uuid));
      [|destruct (negb (truthy to_uuid) || negb (truthy body))].
    1,2: destruct (reply_cases websocket
                     (if negb (truthy user_uuid) then Error "Register first"
                      else Error "to_uuid and text are required")
                     user_uuid w) as [(Hc & _)|_]; try contradiction;
      match goal with
      | |- context [reply ?a ?b ?c ?d] =>
          destruct (reply_cases a b c d)
            as [(Hc & _)|(_ & w' & -> & _ & _ & _ & Hcl & _)]
      end; try contradiction; eauto.
    pose proof (ws_deliver_closed (str user_uuid) (str to_uuid) (str body) w)
      as Hcl0.
    destruct (ws_deliver (str user_uuid) (str to_uuid) (str body) w) as [w0 []];
      cbn [fst] in Hcl0;
      match goal with
      | |- context [reply ?a ?b ?c ?d] =>
          destruct (reply_cases a b c d)
            as [(Hc & _)|(_ & w' & -> & _ & _ & _ & Hcl & _)]
      end; try (rewrite Hcl0 in Hc; contradiction);
      exists user_uuid, w'; (split; [reflexivity|congruence]).
  - eauto.
Qed.

(** X20: no event with string fields ends a session.  As long as the
    session's own connection accepts writes, the loop handles every sequence
    of events to its end without leaving the [try]: an unknown type, a
    refused identifier, a missing field, an unknown or unreachable recipient
    and a recipient whose connection is broken are all answered and the loop
    goes on. *)
Theorem events_never_end_a_session websocket evs : ∀ (user_uuid : option string) w,
  websocket ∉ closed w →
  ∃ u' w', receive_loop websocket user_uuid evs w = Next u' w'
           ∧ closed w' = closed w.
Proof.
  induction evs as [|ev evs IH]; intros user_uuid w Hopen; cbn [receive_loop].
  - eauto.
  - destruct (on_event_open websocket user_uuid ev w Hopen) as (u1 & w1 & -> & Hcl).
    destruct (IH u1 w1) as (u2 & w2 & -> & Hcl2); [now rewrite Hcl|].
    exists u2, w2. split; [reflexivity|congruence].
Qed.

(** X21: a ["message"] event writes to the recipient and answers the
    sender, and nothing else.  The frames of every WebSocket other than the
    session's own and the one stored under the recipient, and the items of
    every queue other than the one stored under the recipient, are the same
    after the event; both dictionaries are unchanged. *)
Theorem ws_message_writes_to_recipient_only
    websocket (user_uuid to_uuid body : option string) c q w :
  (c ≠ websocket → websocket_connections w !! str to_uuid ≠ Some c →
     frames_on c (world_of (on_message websocket user_uuid to_uuid body w))
     = frames_on c w) ∧
  (sse_queues w !! str to_uuid ≠ Some q →
     items_on q (world_of (on_message websocket user_uuid to_uuid body w))
     = items_on q w) ∧
  websocket_connections (world_of (on_message websocket user_uuid to_uuid body w))
    = websocket_connections w ∧
  sse_queues (world_of (on_message websocket user_uuid to_uuid body w))
    = sse_queues w.
Proof.
  assert (Hreply : ∀ f (u : option string) w0,
    (c ≠ websocket → frames_on c (world_of (reply websocket f u w0)) = frames_on c w0)
    ∧ items_on q (world_of (reply websocket f u w0)) = items_on q w0).
  { intros f u w0.
    destruct (reply_cases websocket f u w0)
      as [(_ & ->)|(_ & w' & -> & _ & _ & Hi & _ & _ & _ & Hoth)];
      cbn [world_of]; [auto|].
    split; [intros Hne; now apply Hoth|]. unfold items_on. now rewrite Hi. }
  split; [|split; [|split]].
  - intros Hne Hc. unfold on_message.
    destruct (negb (truthy user_uuid));
      [|destruct (negb (truthy to_uuid) || negb (truthy body))];
      try (now apply Hreply).
    pose proof (deliveries_write_alike (str user_uuid) (str to_uuid) (str body) w)
      as Hw.
    rewrite http_deliver_cases in Hw. cbn zeta in Hw.
    destruct (ws_deliver (str user_uuid) (str to_uuid) (str body) w) as [w0 r].
    cbn [fst] in Hw. subst w0.
    assert (frames_on c (world_of (reply websocket
              (match r with
               | Delivered => MessageSent (str to_uuid)
               | PeerOffline => Error (not_online (str to_uuid))
               end) user_uuid
              match sse_queues w !! str to_uuid with
              | Some q0 =>
                  put q0 (Message (str user_uuid) (str body))
                    match websocket_connections w !! str to_uuid with
                    | Some c0 =>
                        send_json_guarded c0
                          (Incoming (Message (str user_uuid) (str body))) w
                    | None => w
                    end
              | None =>
                  match websocket_connections w !! str to_uuid with
                  | Some c0 =>
                      send_json_guarded c0
                        (Incoming (Message (str user_uuid) (str body))) w
                  | None => w
                  end
              end)) = frames_on c w) as Hgoal.
    { rewrite (proj1 (Hreply _ _ _)) by exact Hne.
      destruct (sse_queues w !! str to_uuid);
        destruct (websocket_connections w !! str to_uuid) as [c0|];
        rewrite ?frames_on_put, ?frames_on_send_json_guarded;
        repeat case_decide; congruence. }
    destruct r; exact Hgoal.
  - intros Hq. unfold on_message.
    destruct (negb (truthy user_uuid));
      [|destruct (negb (truthy to_uuid) || negb (truthy body))];
      try (now apply Hreply).
    pose proof (deliveries_write_alike (str user_uuid) (str to_uuid) (str body) w)
      as Hw.
    rewrite http_deliver_cases in Hw. cbn zeta in Hw.
    destruct (ws_deliver (str user_uuid) (str to_uuid) (str body) w) as [w0 r].
    cbn [fst] in Hw. subst w0.
    destruct r; rewrite (proj2 (Hreply _ _ _));
      destruct (sse_queues w !! str to_uuid) as [q0|];
      destruct (websocket_connections w !! str to_uuid);
      rewrite ?items_on_put, ?items_on_send_json_guarded;
      repeat case_decide; congruence.
  - apply on_message_registry.
  - apply (on_event_registry websocket user_uuid (Send to_uuid body) w).
Qed.

(** X22: an identifier is offline before any registration and after all
    of its slots are unregistered.  In the initial state, and after the
    cleanup of the WebSocket session and the cancellation of the stream of an
    identifier, a delivery to it writes nothing and is reported as
    PeerOffline by both handlers. *)
Theorem offline_without_registration id e from txt w :
  id ≠ "" → e ≠ CancelledError →
  ws_deliver from id txt empty_world = (empty_world, PeerOffline) ∧
  http_deliver from id txt empty_world = (empty_world, PeerOffline) ∧
  snd (ws_deliver from id txt (sse_cancelled id (on_exit e (Some id) w)))
    = PeerOffline ∧
  snd (http_deliver from id txt (sse_cancelled id (on_exit e (Some id) w)))
    = PeerOffline.
Proof.
  intros Hne He.
  split; [|split].
  - unfold ws_deliver. cbn [empty_world websocket_connections sse_queues].
    now rewrite !lookup_empty.
  - unfold http_deliver. cbn [empty_world websocket_connections sse_queues].
    now rewrite !lookup_empty.
  - apply offline_without_slots.
    + unfold sse_cancelled, set_sse_queues. cbn [websocket_connections].
      now apply on_exit_removes.
    + unfold sse_cancelled, set_sse_queues. cbn [sse_queues].
      apply lookup_delete_eq.
Qed.

End SessionMessages.

(** ** Instances *)

(** X1, witness: a request for a recipient whose only slot is broken. *)
Lemma http_failure_leaves_state_witness :
  snd (send_message_http (Some hi_to_bob) stale_world) = stale_world.
Proof. apply (http_failure_leaves_state (Some hi_to_bob) stale_world). reflexivity. Defined.

(** X5, witness: a request for a recipient with both slots. *)
Lemma http_success_hands_over_witness :
  (∃ c, websocket_connections both_world !! str (req_to_uuid hi_to_bob) = Some c ∧
        frames_on c (snd (send_message_http (Some hi_to_bob) both_world))
        = frames_on c both_world ++ [Incoming (payload_of hi_to_bob)]) ∨
  (∃ q, sse_queues both_world !! str (req_to_uuid hi_to_bob) = Some q ∧
        items_on q (snd (send_message_http (Some hi_to_bob) both_world))
        = items_on q both_world ++ [payload_of hi_to_bob]).
Proof. apply (http_success_hands_over hi_to_bob both_world). reflexivity. Defined.

(** X6, witness: two requests for [bob]. *)
Lemma sends_are_queued_in_order_witness :
  items_on 0 (snd (send_all [hi_to_bob; bye_to_bob] both_world))
    = items_on 0 both_world ++ map payload_of [hi_to_bob; bye_to_bob] ∧
  Forall (λ resp, status_code resp = 200)
    (fst (send_all [hi_to_bob; bye_to_bob] both_world)).
Proof.
  apply (sends_are_queued_in_order bob 0 [hi_to_bob; bye_to_bob] both_world).
  - reflexivity.
  - repeat constructor.
Defined.

(** X7, witness: an unregistered session sends a message and an unknown
    event. *)
Lemma unregistered_session_delivers_nothing_witness :
  queued (world_of (receive_loop 1 None [Send (Some bob) (Some "hi"); Other]
                      both_world)) = queued both_world ∧
  frames_on 1 (world_of (receive_loop 1 None [Send (Some bob) (Some "hi"); Other]
                           both_world)) = [Error "Register first"].
Proof.
  destruct (unregistered_session_delivers_nothing 1
              [Send (Some bob) (Some "hi"); Other] both_world)
    as (_ & Hq & _ & _ & _ & Hown); [repeat constructor|].
  split; [exact Hq|]. apply Hown. set_solver.
Defined.

(** X10, witness: [alice] registers on WebSocket 1 and disconnects. *)
Lemma register_then_disconnect_restores_witness :
  websocket_connections
    (websocket_endpoint 1 [Register (Some alice)] WebSocketDisconnect both_world)
    = websocket_connections both_world ∧
  sse_queues
    (websocket_endpoint 1 [Register (Some alice)] WebSocketDisconnect both_world)
    = sse_queues both_world.
Proof.
  apply (register_then_disconnect_restores 1 alice WebSocketDisconnect both_world);
    [reflexivity|discriminate].
Defined.

(** X11, witness: [alice] subscribes; her stream is cancelled while it
    waits, or is closed at a [yield]. *)
Lemma subscribe_then_cancel_restores_witness :
  sse_queues (event_generator_ends CancelledWhileWaiting alice
                (snd (sse_endpoint (Some alice) both_world)))
    = sse_queues both_world ∧
  sse_queues (event_generator_ends ClosedAtYield alice
                (snd (sse_endpoint (Some alice) both_world))) !! alice
    = Some (next_queue both_world).
Proof.
  split.
  - apply (subscribe_then_cancel_restores alice CancelledWhileWaiting both_world);
      reflexivity.
  - apply (subscribe_then_cancel_restores alice ClosedAtYield both_world);
      [reflexivity|discriminate|discriminate|reflexivity].
Defined.

(** X12, witness: the state after one subscription. *)
Lemma registry_keys_are_valid_witness :
  keys_valid (websocket_connections subscribed_world) ∧
  keys_valid (sse_queues subscribed_world).
Proof.
  apply (registry_keys_are_valid subscribed_world).
  apply rtc_once, (step_subscribe (Some bob) empty_world).
Defined.


(** X14, witness: a message to a refused text in a state where [bob] is
    registered on a WebSocket and on a queue. *)
Lemma malformed_recipient_reaches_nobody_witness :
  websocket_connections registered_world !! bob = Some 7 ∧
  sse_queues registered_world !! bob = Some 0 ∧
  on_message 1 (Some alice) (Some "not-a-uuid") (Some "hi") registered_world
  = reply 1 (Error (not_online "not-a-uuid")) (Some alice) registered_world.
Proof.
  split; [reflexivity|]. split; [reflexivity|].
  apply (malformed_recipient_reaches_nobody registered_world 1 alice
           "not-a-uuid" "hi");
    [|discriminate|discriminate|discriminate|reflexivity].
  apply (rtc_l step empty_world subscribed_world registered_world).
  - apply (step_subscribe (Some bob) empty_world).
  - apply rtc_once.
    apply (step_event 7 None (Register (Some bob)) subscribed_world).
Defined.

(** X15, witness: [alice] on WebSocket 1 writes to the subscriber [bob]. *)
Lemma websocket_to_push_delivery_witness :
  last (items_on 0
          (world_of (on_event 1 (user_of (on_register 1 (Some alice) empty_world))
             (Send (Some bob) (Some "hi"))
             (snd (sse_endpoint (Some bob)
                     (world_of (on_register 1 (Some alice) empty_world)))))))
  = Some (Message alice "hi").
Proof.
  destruct (websocket_to_push_delivery alice bob "hi" 1 empty_world)
    as (_ & _ & _ & H & _);
    [discriminate|reflexivity|discriminate|reflexivity|discriminate
    |set_solver|].
  exact H.
Defined.


(** X17, witness: a text that imitates the end of the sender field and a
    text field of its own, against the message it imitates. *)
Lemma different_messages_different_events_witness :
  message_event (Message alice forged_text)
  ≠ message_event (Message forged_sender "hi").
Proof.
  apply (different_messages_different_events
           (Message alice forged_text) (Message forged_sender "hi")).
  discriminate.
Defined.

(** C7, witness: [bob] is registered on WebSocket 7 and on queue 0, the
    sender writes on WebSocket 1, and every connection accepts writes. *)
Lemma delivery_to_both_slots_witness :
  (fst (send_message_http (Some hi_to_bob) both_world)
     = Response 200 true "Message sent successfully" ∧
   items_on 0 (snd (send_message_http (Some hi_to_bob) both_world))
     = [Message alice "hi"] ∧
   frames_on 7 (snd (send_message_http (Some hi_to_bob) both_world))
     = [Incoming (Message alice "hi")]) ∧
  (items_on 0 (world_of
       (on_message 1 (Some alice) (Some bob) (Some "hi") both_world))
     = [Message alice "hi"] ∧
   frames_on 7 (world_of
       (on_message 1 (Some alice) (Some bob) (Some "hi") both_world))
     = [Incoming (Message alice "hi")] ∧
   frames_on 1 (world_of
       (on_message 1 (Some alice) (Some bob) (Some "hi") both_world))
     = [MessageSent bob] ∧
   on_message 1 (Some alice) (Some bob) (Some "hi") both_world
     = Next (Some alice)
         (world_of
            (on_message 1 (Some alice) (Some bob) (Some "hi") both_world))).
Proof.
  apply (delivery_to_both_slots 1 alice bob "hi" 7 0 both_world);
    try discriminate; reflexivity.
Defined.

(** C7, counterexample: [bob] has both slots and the connection of his
    WebSocket 7 is broken.  Both handlers tell the sender that the message
    was delivered and the queue receives it, but nothing is written on
    WebSocket 7. *)
Lemma broken_websocket_observes_nothing :
  websocket_connections broken_both_world !! bob = Some 7 ∧
  sse_queues broken_both_world !! bob = Some 0 ∧
  fst (send_message_http (Some hi_to_bob) broken_both_world)
    = Response 200 true "Message sent successfully" ∧
  frames_on 7 (snd (send_message_http (Some hi_to_bob) broken_both_world)) = [] ∧
  items_on 0 (snd (send_message_http (Some hi_to_bob) broken_both_world))
    = [Message alice "hi"] ∧
  frames_on 7 (world_of
      (on_message 1 (Some alice) (Some bob) (Some "hi") broken_both_world)) = [] ∧
  items_on 0 (world_of
      (on_message 1 (Some alice) (Some bob) (Some "hi") broken_both_world))
    = [Message alice "hi"] ∧
  frames_on 1 (world_of
      (on_message 1 (Some alice) (Some bob) (Some "hi") broken_both_world))
    = [MessageSent bob].
Proof. repeat split. Qed.

(** C6, witness: one canonical identifier with its three variants; a word
    of ten characters; a text in the canonical layout whose characters are
    not hexadecimal digits. *)
Lemma validator_accepts_and_rejects_witness :
  (valid_uuid alice = true ∧
   valid_uuid (PyStr.remove "-" alice) = true ∧
   valid_uuid ("{" +:+ alice +:+ "}") = true ∧
   valid_uuid ("urn:uuid:" +:+ alice) = true) ∧
  valid_uuid "not-a-uuid" = false ∧
  valid_uuid "zzzzzzzz-zzzz-zzzz-zzzz-zzzzzzzzzzzz" = false.
Proof.
  split; [|split].
  - apply (validator_accepts_and_rejects alice). reflexivity.
  - apply (proj1 (proj2 (proj2 (proj2
             (validator_accepts_and_rejects "not-a-uuid"))))).
    cbn. lia.
  - apply (proj2 (proj2 (proj2 (proj2
             (validator_accepts_and_rejects
                "zzzzzzzz-zzzz-zzzz-zzzz-zzzzzzzzzzzz")))));
      reflexivity.
Defined.

(** X18, witness: a text of ten characters. *)
Lemma short_text_is_refused_witness : valid_uuid "not-a-uuid" = false.
Proof. apply (short_text_is_refused "not-a-uuid"). cbn. lia. Defined.

(** X19, witness: the four spellings of one identifier. *)
Lemma spellings_denote_one_number_witness :
  UUID alice = Some (hex_number 0 (PyStr.remove "-" alice)) ∧
  UUID (PyStr.remove "-" alice) = UUID alice ∧
  UUID ("{" +:+ alice +:+ "}") = UUID alice ∧
  UUID ("urn:uuid:" +:+ alice) = UUID alice.
Proof. apply (spellings_denote_one_number alice). reflexivity. Defined.

(** X20, witness: a refused identifier, a message without fields and an
    unknown event on a connected WebSocket. *)
Lemma events_never_end_a_session_witness :
  ∃ u' w',
    receive_loop 1 None [Register (Some "not-a-uuid"); Send None None; Other]
      stale_world = Next u' w'
    ∧ closed w' = closed stale_world.
Proof.
  apply (events_never_end_a_session 1
           [Register (Some "not-a-uuid"); Send None None; Other] None stale_world).
  set_solver.
Defined.

(** X22, witness: [bob] after the end of his session and of his stream. *)
Lemma offline_without_registration_witness :
  snd (http_deliver alice bob "hi"
         (sse_cancelled bob (on_exit WebSocketDisconnect (Some bob) both_world)))
  = PeerOffline.
Proof.
  destruct (offline_without_registration bob WebSocketDisconnect alice "hi"
              both_world) as (_ & _ & _ & H); [discriminate|discriminate|].
  exact H.
Defined.
